(** * DragonOS kernel console: [kernel/common/printk.c]

    A shallow embedding of the format engine ([vsprintf], [write_num],
    [skip_and_atoi]) and of the console writer ([init_printk],
    [set_printk_pos], [auto_newline], [putchar], [printk_color]), followed by
    the properties of the specification that were checked against it.

    Target data model (x86-64, the only target of the kernel): [int] is 32
    bits, [long long] and pointers are 64 bits, every variadic integer or
    pointer argument occupies one 64-bit slot.  Signed overflow is modelled
    by two's-complement wrap-around, written out with [to_int] and [to_ll].
    The global output buffer [buf] is modelled by the list of characters
    stored in it; its capacity is not modelled.  [show_color_band] and the
    arithmetic of [write_float_point_num] are outside the embedding. *)

From Stdlib Require Import ZArith List Ascii String Bool Lia.
Import ListNotations.
Local Open Scope Z_scope.

(** ** Machine integers *)

Definition wrap_signed (bits z : Z) : Z :=
  (z + 2 ^ (bits - 1)) mod 2 ^ bits - 2 ^ (bits - 1).

Definition to_int (z : Z) : Z := wrap_signed 32 z.
Definition to_ll (z : Z) : Z := wrap_signed 64 z.
Definition to_uint (z : Z) : Z := z mod 2 ^ 32.
Definition to_ull (z : Z) : Z := z mod 2 ^ 64.
Definition to_uchar (z : Z) : Z := z mod 2 ^ 8.

(** [sizeof(void * )] *)
Definition sizeof_pointer : Z := 8.

Definition INT_MIN : Z := - 2 ^ 31.
Definition INT_MAX : Z := 2 ^ 31 - 1.
Definition is_int (z : Z) : Prop := INT_MIN <= z <= INT_MAX.

(** ** Characters and C strings

    A C string is the list of its characters before the terminating NUL. *)

Definition code (c : ascii) : Z := Z.of_N (N_of_ascii c).
Definition char_of (z : Z) : ascii := ascii_of_N (Z.to_N (to_uchar z)).
Definition str (s : string) : list ascii := list_ascii_of_string s.

(** ** Faults: the executions C leaves undefined or that trap *)

Inductive fault : Set :=
| DivideByZero        (* integer division by zero *)
| NullDereference     (* load or store through a null pointer *)
| VaArgMismatch       (* va_arg past the last argument, or of the wrong class *)
| ReadPastTerminator  (* load from the byte after a string's NUL *)
| OutOfFuel.          (* never returned with the fuel [vsprintf] supplies *)

Inductive result (A : Type) : Type :=
| Ok (a : A)
| Fault (f : fault).
Arguments Ok {A} a.
Arguments Fault {A} f.

Definition bind {A B : Type} (r : result A) (k : A -> result B) : result B :=
  match r with
  | Ok a => k a
  | Fault f => Fault f
  end.

Notation "x <- c1 ;; c2" := (bind c1 (fun x => c2))
  (at level 61, c1 at next level, right associativity).
Notation "' pat <- c1 ;; c2" := (bind c1 (fun x => match x with pat => c2 end))
  (at level 61, pat pattern, c1 at next level, right associativity).

(** ** Constants of [printk.h]

    Modelled from the spec: the header [printk.h] is not among the sources.
    The specification describes the flag set {left-align, force-sign,
    space-sign, alternate-form, zero-pad, signed, lower-case-digits} as a
    bitmap; each flag is one bit and the bits are pairwise distinct. *)

Definition PAD_ZERO : Z := 1.
Definition LEFT : Z := 2.
Definition RIGHT : Z := 4.
Definition PLUS : Z := 8.
Definition SPACE : Z := 16.
Definition SPECIAL : Z := 32.
Definition SMALL : Z := 64.
Definition SIGN : Z := 128.

(** Modelled from the spec: the macros [is_digit] and [ABS] of the absent
    headers; "a decimal digit" and "the absolute magnitude". *)

Definition is_digit (c : ascii) : bool := (48 <=? code c) && (code c <=? 57).
Definition ABS (x : Z) : Z := if 0 <? x then x else to_ll (- x).

(** Tests of the form [if (flags & F)]. *)
Definition has (flags F : Z) : bool := negb (Z.land flags F =? 0).

(** ** Screen state: [struct screen_info pos] and the frame buffer *)

Module screen_info.
Record t : Set := mk {
  width : Z;  height : Z;
  max_x : Z;  max_y : Z;
  x : Z;  y : Z;
  char_size_x : Z;  char_size_y : Z;
  FB_address : Z;          (* counted in pixels ([unsigned int]) *)
  FB_length : Z
}.
Definition set_x (v : Z) (p : t) : t :=
  mk (width p) (height p) (max_x p) (max_y p) v (y p)
     (char_size_x p) (char_size_y p) (FB_address p) (FB_length p).
Definition set_y (v : Z) (p : t) : t :=
  mk (width p) (height p) (max_x p) (max_y p) (x p) v
     (char_size_x p) (char_size_y p) (FB_address p) (FB_length p).
End screen_info.
Import screen_info.

(** A pixel store [*addr = color]; [addr] is counted in pixels. *)
Definition store : Set := (Z * Z)%type.

(** The global [pos] together with the stores made so far, oldest first. *)
Record console : Set := mkConsole {
  pos : screen_info.t;
  vram : list store
}.

Definition cursor (c : console) : Z * Z := (x (pos c), y (pos c)).

(** The cell the cursor is on lies on the character grid. *)
Definition cursor_in_bounds (c : console) : Prop :=
  0 <= x (pos c) <= max_x (pos c) /\ 0 <= y (pos c) <= max_y (pos c).

(** [calculate_max_charNum]: [len / size], C's truncating division. *)
Definition calculate_max_charNum (len size : Z) : result Z :=
  if size =? 0 then Fault DivideByZero else Ok (to_int (Z.quot len size)).

Definition init_printk (width height FB_address FB_length char_size_x char_size_y : Z)
    (c : console) : result (Z * console) :=
  mx <- calculate_max_charNum width char_size_x ;;
  my <- calculate_max_charNum height char_size_y ;;
  Ok (0, mkConsole
           (screen_info.mk width height mx my 0 0
              char_size_x char_size_y FB_address FB_length)
           (vram c)).

Definition auto_newline (p : screen_info.t) : screen_info.t :=
  let p := if max_x p <? x p
           then set_y (to_int (y p + 1)) (set_x 0 p)
           else p in
  if max_y p <? y p then set_y 0 p else p.

(** ** The format engine *)

(** [skip_and_atoi]: the value of the run of digits at [*s], and [*s]
    advanced past it. *)
Fixpoint skip_and_atoi_from (ans : Z) (s : list ascii) : Z * list ascii :=
  match s with
  | c :: s' =>
      if is_digit c
      then skip_and_atoi_from (to_int (ans * 10 + code c - code "0")) s'
      else (ans, s)
  | [] => (ans, s)
  end.

Definition skip_and_atoi (s : list ascii) : Z * list ascii :=
  skip_and_atoi_from 0 s.

(** [while (field_width-- > 0) *str++ = c;]: the characters stored and the
    value [field_width] is left with. *)
Definition pad_while (c : ascii) (field_width : Z) : list ascii * Z :=
  if 0 <? field_width
  then (repeat c (Z.to_nat field_width), -1)
  else ([], to_int (field_width - 1)).

(** [while (--field_width > 0) *str++ = c;] *)
Definition pad_while_pre (c : ascii) (field_width : Z) : list ascii * Z :=
  let fw := to_int (field_width - 1) in
  if 0 <? fw then (repeat c (Z.to_nat fw), 0) else ([], fw).

(** [while (len < field_width--) *str++ = c;] *)
Definition pad_while_len (c : ascii) (len field_width : Z) : list ascii * Z :=
  if len <? field_width
  then (repeat c (Z.to_nat (field_width - len)), to_int (len - 1))
  else ([], to_int (field_width - 1)).

Definition digits_upper : list ascii := str "0123456789ABCDEFGHIJKLMNOPQRSTUVWXYZ".
Definition digits_lower : list ascii := str "0123456789abcdefghijklmnopqrstuvwxyz".

Definition digit_at (digits : list ascii) (i : Z) : ascii :=
  nth (Z.to_nat i) digits zero.

(** The conversion loop of [write_num]:
    [while (num > 0) { tmp_num[js_num++] = digits[num % base]; num /= base; }]
    The result is [tmp_num], least significant digit first.  A [long long]
    has 64 bits, so 64 rounds empty any [num] when [base >= 2]. *)
Fixpoint convert_loop (fuel : nat) (digits : list ascii) (num base : Z) : list ascii :=
  match fuel with
  | O => []
  | S fuel' =>
      if 0 <? num
      then digit_at digits (Z.rem num base)
             :: convert_loop fuel' digits (Z.quot num base) base
      else []
  end.

(** [write_num]: the characters stored from [str] on, or [None] when it
    returns the null pointer. *)
Definition write_num (num base field_width precision flags : Z) : option (list ascii) :=
  if (base <? 2) || (36 <? base) then None else
  let digits := if has flags SMALL then digits_lower else digits_upper in
  let flags := if has flags LEFT then Z.land flags (Z.lnot PAD_ZERO) else flags in
  let pad := if has flags PAD_ZERO then "0"%char else " "%char in
  let '(sign, num) :=
    if has flags SIGN && (num <? 0)
    then (Some "-"%char, to_ll (- num))
    else (if has flags PLUS then Some "+"%char
          else if has flags SPACE then Some " "%char else None, num) in
  let field_width :=
    match sign with Some _ => to_int (field_width - 1) | None => field_width end in
  let field_width :=
    if has flags SPECIAL
    then if base =? 16 then to_int (field_width - 2)
         else if base =? 8 then to_int (field_width - 1)
         else field_width
    else field_width in
  let tmp_num :=
    if num =? 0 then ["0"%char] else convert_loop 64 digits (ABS num) base in
  let js_num := Z.of_nat (List.length tmp_num) in
  let precision := if precision <? js_num then js_num else precision in
  let field_width := to_int (field_width - precision) in
  let '(lead, field_width) :=
    if has flags (LEFT + PAD_ZERO) then ([], field_width)
    else pad_while " " field_width in
  let sign_out := match sign with Some c => [c] | None => [] end in
  let prefix :=
    if has flags SPECIAL
    then if base =? 16 then ["0"%char; digit_at digits 33]
         else if base =? 8 then [digit_at digits 24]
         else []
    else [] in
  let '(fill, field_width) :=
    if has flags LEFT then ([], field_width) else pad_while pad field_width in
  let zeros := repeat "0"%char (Z.to_nat (precision - js_num)) in
  let '(trail, _) := pad_while " " field_width in
  Some (lead ++ sign_out ++ prefix ++ fill ++ zeros ++ rev tmp_num ++ trail).


(** *** Variadic arguments

    An argument list is the sequence of argument slots not yet fetched.
    Integer and plain pointer arguments are the 64-bit content of their slot,
    read back at the width [va_arg] is asked for; a [char *] argument is null
    or the string it points to; a [double] is its bit pattern. *)

Inductive va_slot : Set :=
| Vword (w : Z)
| Vstr (s : option (list ascii))
| Vdouble (bits : Z).

Definition va_list : Set := list va_slot.

Definition va_arg_word (args : va_list) : result (Z * va_list) :=
  match args with
  | Vword w :: args' => Ok (w, args')
  | _ => Fault VaArgMismatch
  end.

(** [va_arg(args, int)], [unsigned int], [long long], [unsigned long long],
    and a pointer to an object. *)
Definition va_arg_int (args : va_list) : result (Z * va_list) :=
  '(w, args') <- va_arg_word args ;; Ok (to_int w, args').
Definition va_arg_uint (args : va_list) : result (Z * va_list) :=
  '(w, args') <- va_arg_word args ;; Ok (to_uint w, args').
Definition va_arg_ll (args : va_list) : result (Z * va_list) :=
  '(w, args') <- va_arg_word args ;; Ok (to_ll w, args').
Definition va_arg_ull (args : va_list) : result (Z * va_list) :=
  '(w, args') <- va_arg_word args ;; Ok (to_ull w, args').
Definition va_arg_ptr (args : va_list) : result (Z * va_list) :=
  '(w, args') <- va_arg_word args ;; Ok (to_ull w, args').

(** [va_arg(args, char * )] *)
Definition va_arg_str (args : va_list) : result (option (list ascii) * va_list) :=
  match args with
  | Vstr s :: args' => Ok (s, args')
  | _ => Fault VaArgMismatch
  end.

(** [va_arg(args, double)] *)
Definition va_arg_double (args : va_list) : result (Z * va_list) :=
  match args with
  | Vdouble d :: args' => Ok (d, args')
  | _ => Fault VaArgMismatch
  end.

(** [strlen]: walks the string from [s]; a null [s] is dereferenced. *)
Definition strlen (s : option (list ascii)) : result Z :=
  match s with
  | None => Fault NullDereference
  | Some chars => Ok (Z.of_nat (List.length chars))
  end.

(** The flag loop at the head of a directive: the flags read, the position
    reached, and [flag_break]. *)
Fixpoint parse_flags (flags : Z) (fmt : list ascii) : Z * list ascii * bool :=
  match fmt with
  | [] => (flags, fmt, true)
  | c :: fmt' =>
      match c with
      | "-"%char => parse_flags (Z.lor flags LEFT) fmt'
      | "+"%char => parse_flags (Z.lor flags PLUS) fmt'
      | " "%char => parse_flags (Z.lor flags SPACE) fmt'
      | "#"%char => parse_flags (Z.lor flags SPECIAL) fmt'
      | "0"%char => parse_flags (Z.lor flags PAD_ZERO) fmt'
      | _ => (flags, fmt, false)
      end
  end.

(** Field width: [*], a run of digits, or [-1]. *)
Definition parse_width (flags : Z) (fmt : list ascii) (args : va_list)
  : result (Z * Z * list ascii * va_list) :=
  match fmt with
  | "*"%char :: fmt' =>
      '(w, args') <- va_arg_int args ;; Ok (w, flags, fmt', args')
  | c :: _ =>
      if is_digit c then
        let '(w, fmt') := skip_and_atoi fmt in
        if w <? 0 then Ok (to_int (- w), Z.lor flags LEFT, fmt', args)
        else Ok (w, flags, fmt', args)
      else Ok (-1, flags, fmt, args)
  | [] => Ok (-1, flags, fmt, args)
  end.

(** Precision: after a [.], [*] or a run of digits, else [-1]. *)
Definition parse_precision (fmt : list ascii) (args : va_list)
  : result (Z * list ascii * va_list) :=
  match fmt with
  | "."%char :: fmt1 =>
      match fmt1 with
      | "*"%char :: fmt2 =>
          '(p, args') <- va_arg_int args ;; Ok (p, fmt2, args')
      | c :: _ =>
          if is_digit c then
            let '(p, fmt2) := skip_and_atoi fmt1 in Ok (p, fmt2, args)
          else Ok (-1, fmt1, args)
      | [] => Ok (-1, fmt1, args)
      end
  | _ => Ok (-1, fmt, args)
  end.

(** Length qualifier: [qualifier] is assigned only when one of [h l L Z] is
    read; otherwise it keeps the value it had. *)
Definition parse_qualifier (qualifier : Z) (fmt : list ascii) : Z * list ascii :=
  match fmt with
  | c :: fmt' =>
      match c with
      | "h"%char | "l"%char | "L"%char | "Z"%char => (code c, fmt')
      | _ => (qualifier, fmt)
      end
  | [] => (qualifier, fmt)
  end.

(** [if (qualifier == 'l' && *fmt == 'l', *(fmt + 1) == 'd') ++fmt;]
    The comma operator leaves [*(fmt + 1) == 'd'] as the condition.  When
    [fmt] is on the terminator, [fmt + 1] is outside the string. *)
Definition skip_before_d (fmt : list ascii) : result (list ascii) :=
  match fmt with
  | [] => Fault ReadPastTerminator
  | _ :: fmt' =>
      match fmt' with
      | "d"%char :: _ => Ok fmt'
      | _ => Ok fmt
      end
  end.

(** ** Sample consoles

    The console before any call, and a 16 by 32 pixel screen with 8 by 16
    pixel cells as [init_printk] sets it up: a grid with [max_x = max_y = 2]. *)
Definition console_at_boot : console :=
  mkConsole (screen_info.mk 0 0 0 0 0 0 0 0 0 0) [].
Definition console_16x32 : console :=
  mkConsole (screen_info.mk 16 32 2 2 0 0 8 16 0 512) [].

(** A 640 by 400 pixel screen with 8 by 16 pixel cells: [max_x = 80],
    [max_y = 25]. *)
Definition console_640x400 : console :=
  mkConsole (screen_info.mk 640 400 80 25 0 0 8 16 0 256000) [].

Section Printk.

(** [write_float_point_num] computes on [double]s; it is taken as given: for
    the bit pattern of the argument, the field width, the precision and the
    flags, the characters it stores from [str] on. *)
Variable write_float_point_num : Z -> Z -> Z -> Z -> list ascii.

(** The glyph table: [font_ascii c i] is byte [i] of the bitmap of [c]. *)
Variable font_ascii : Z -> Z -> Z.

(** The status [set_printk_pos] reports a bad position with, and the colour
    of tab cells; both are macros of the absent headers. *)
Variable EPOS_OVERFLOW : Z.
Variable BLACK : Z.

(** [str = write_num(...)]: a null result is stored through by what follows. *)
Definition stored (r : option (list ascii)) : result (list ascii) :=
  match r with
  | Some out => Ok out
  | None => Fault NullDereference
  end.

(** An integer directive: fetch at the width [qualifier] selects. *)
Definition fetch_signed (qualifier : Z) (args : va_list) : result (Z * va_list) :=
  if qualifier =? code "l" then va_arg_ll args else va_arg_int args.

Definition fetch_unsigned (qualifier : Z) (args : va_list) : result (Z * va_list) :=
  if qualifier =? code "l"
  then '(v, args') <- va_arg_ull args ;; Ok (to_ll v, args')
  else va_arg_uint args.

(** What one conversion leaves behind: the characters stored, the argument
    list, and the stores through [%n] pointers. *)
Definition converted : Set := (list ascii * va_list * list (Z * Z))%type.

(** The [switch ( *fmt )] of [vsprintf] on a character [c] of the template;
    [written] is [str - buf]. *)
Definition conversion (c : ascii) (flags field_width precision qualifier : Z)
    (args : va_list) (written : Z) : result converted :=
  match c with
  | "%"%char => Ok (["%"%char], args, [])
  | "c"%char =>
      let '(lead, field_width) :=
        if has flags LEFT then ([], field_width)
        else pad_while_pre " " field_width in
      '(ch, args) <- va_arg_int args ;;
      let '(trail, _) := pad_while_pre " " field_width in
      Ok (lead ++ [char_of ch] ++ trail, args, [])
  | "s"%char =>
      '(s, args) <- va_arg_str args ;;
      (* [if (!s) s = '\0';] assigns the null pointer constant *)
      let s := match s with None => None | Some _ => s end in
      n <- strlen s ;;
      let len := to_int n in
      let len := if precision <? 0 then len
                 else if precision <? len then precision else len in
      let '(lead, field_width) :=
        if has flags LEFT then ([], field_width)
        else pad_while_len " " len field_width in
      let body := firstn (Z.to_nat len) (match s with Some l => l | None => [] end) in
      let '(trail, _) := pad_while_len " " len field_width in
      Ok (lead ++ body ++ trail, args, [])
  | "o"%char =>
      let flags := Z.lor (Z.lor flags SMALL) SPECIAL in
      '(v, args) <- fetch_signed qualifier args ;;
      out <- stored (write_num v 8 field_width precision flags) ;;
      Ok (out, args, [])
  | "O"%char =>
      let flags := Z.lor flags SPECIAL in
      '(v, args) <- fetch_signed qualifier args ;;
      out <- stored (write_num v 8 field_width precision flags) ;;
      Ok (out, args, [])
  | "p"%char =>
      let '(field_width, flags) :=
        if field_width =? 0 then (2 * sizeof_pointer, Z.lor flags PAD_ZERO)
        else (field_width, flags) in
      '(v, args) <- va_arg_ptr args ;;
      out <- stored (write_num (to_ll v) 16 field_width precision flags) ;;
      Ok (out, args, [])
  | "x"%char =>
      let flags := Z.lor flags SMALL in
      '(v, args) <- fetch_signed qualifier args ;;
      out <- stored (write_num v 16 field_width precision flags) ;;
      Ok (out, args, [])
  | "X"%char =>
      '(v, args) <- fetch_signed qualifier args ;;
      out <- stored (write_num v 16 field_width precision flags) ;;
      Ok (out, args, [])
  | "i"%char | "d"%char =>
      let flags := Z.lor flags SIGN in
      '(v, args) <- fetch_signed qualifier args ;;
      out <- stored (write_num v 10 field_width precision flags) ;;
      Ok (out, args, [])
  | "u"%char =>
      '(v, args) <- fetch_unsigned qualifier args ;;
      out <- stored (write_num v 10 field_width precision flags) ;;
      Ok (out, args, [])
  | "n"%char =>
      (* either branch on [qualifier] fetches a pointer, used as [long long *] *)
      '(ip, args) <- va_arg_ptr args ;;
      if ip =? 0 then Fault NullDereference
      else Ok ([], args, [(ip, written)])
  | "f"%char =>
      let precision := if precision <? 0 then 3 else precision in
      '(d, args) <- va_arg_double args ;;
      Ok (write_float_point_num d field_width precision flags, args, [])
  | _ => Ok (["%"%char; c], args, [])
  end.

(** The state one round of the loop hands to the next: the characters and
    [%n] stores it added, [fmt] after the loop's [++fmt], the argument
    list, and [qualifier]. *)
Record round : Set := mkRound {
  r_out : list ascii;
  r_ips : list (Z * Z);
  r_fmt : list ascii;
  r_args : va_list;
  r_qualifier : Z
}.

(** One [%] directive, from the character after the [%].  [None] is the
    [break] out of the loop taken when the template ends in the flags.  On
    the terminator the [switch] takes [default] with [*fmt == 0]: a [%] is
    stored and [--fmt] makes the loop's [++fmt] come back to the terminator. *)
Definition directive (fmt : list ascii) (qualifier : Z) (args : va_list) (written : Z)
  : result (option round) :=
  let '(flags, fmt, flag_break) := parse_flags 0 fmt in
  if flag_break then Ok None else
  '(field_width, flags, fmt, args) <- parse_width flags fmt args ;;
  '(precision, fmt, args) <- parse_precision fmt args ;;
  let '(qualifier, fmt) := parse_qualifier qualifier fmt in
  fmt <- skip_before_d fmt ;;
  match fmt with
  | [] => Ok (Some (mkRound ["%"%char] [] [] args qualifier))
  | c :: fmt' =>
      '(out, args, ips) <-
        conversion c flags field_width precision qualifier args written ;;
      Ok (Some (mkRound out ips fmt' args qualifier))
  end.

(** The content of [buf] up to the terminator, and the stores made through
    [%n] pointers. *)
Record formatted : Set := mkFormatted {
  buf : list ascii;
  ip_stores : list (Z * Z)
}.

(** The loop [for (; *fmt; ++fmt)].  [flags], [field_width], [precision] and
    [len] are assigned in every directive before they are read; [qualifier]
    is not, and is carried from one round to the next. *)
Fixpoint vsprintf_loop (fuel : nat) (fmt : list ascii) (qualifier : Z) (args : va_list)
    (out : list ascii) (ips : list (Z * Z)) : result formatted :=
  match fmt with
  | [] => Ok (mkFormatted out ips)
  | c :: fmt' =>
      match fuel with
      | O => Fault OutOfFuel
      | S fuel' =>
          if Ascii.eqb c "%" then
            d <- directive fmt' qualifier args (Z.of_nat (List.length out)) ;;
            match d with
            | None => Ok (mkFormatted out ips)
            | Some r =>
                vsprintf_loop fuel' (r_fmt r) (r_qualifier r) (r_args r)
                  (out ++ r_out r) (ips ++ r_ips r)
            end
          else vsprintf_loop fuel' fmt' qualifier args (out ++ [c]) ips
      end
  end.

(** [vsprintf].  [qualifier] is declared without an initialiser: its first
    value is whatever the stack holds, here the argument [qualifier0]. *)
Definition vsprintf (qualifier0 : Z) (fmt : list ascii) (args : va_list) : result formatted :=
  vsprintf_loop (List.length fmt) fmt qualifier0 args [] [].

(** The value [vsprintf] returns, [str - buf] as an [int]. *)
Definition vsprintf_len (f : formatted) : Z := to_int (Z.of_nat (List.length (buf f))).

(** ** The console writer *)

Definition set_printk_pos (x y : Z) (c : console) : Z * console :=
  if negb (((0 <=? x) && (x <=? max_x (pos c))) && ((0 <=? y) && (y <=? max_y (pos c))))
  then (EPOS_OVERFLOW, c)
  else (0, mkConsole (set_y y (set_x x (pos c))) (vram c)).

(** The inner loop of [putchar] over the columns of one scan line. *)
Fixpoint putchar_cols (n : nat) (font_byte testbit addr FRcolor BKcolor : Z) : list store :=
  match n with
  | O => []
  | S n' =>
      let testbit := Z.shiftr testbit 1 in
      (addr, if Z.land font_byte testbit =? 0 then BKcolor else FRcolor)
        :: putchar_cols n' font_byte testbit (addr + 1) FRcolor BKcolor
  end.

(** The outer loop of [putchar], from scan line [i] on. *)
Fixpoint putchar_rows (n : nat) (i : Z) (p : screen_info.t)
    (fb Xsize x y FRcolor BKcolor font : Z) : list store :=
  match n with
  | O => []
  | S n' =>
      let addr := fb + to_int (Xsize * to_int (y + i)) + x in
      let testbit := to_int (Z.shiftl 1 (to_int (char_size_x p + 1))) in
      putchar_cols (Z.to_nat (char_size_x p)) (font_ascii font i) testbit addr FRcolor BKcolor
        ++ putchar_rows n' (i + 1) p fb Xsize x y FRcolor BKcolor font
  end.

(** [putchar]: the pixel stores of one glyph, in program order. *)
Definition putchar (p : screen_info.t) (fb Xsize x y FRcolor BKcolor font : Z) : list store :=
  putchar_rows (Z.to_nat (char_size_y p)) 0 p fb Xsize x y FRcolor BKcolor font.

(** [putchar] at the cursor, as every call in [printk_color] is made. *)
Definition draw (FRcolor BKcolor font : Z) (c : console) : console :=
  let p := pos c in
  mkConsole p
    (vram c ++ putchar p (FB_address p) (width p)
                 (to_int (x p * char_size_x p)) (to_int (y p * char_size_y p))
                 FRcolor BKcolor font).

(** [++pos.x; auto_newline();] *)
Definition advance (c : console) : console :=
  mkConsole (auto_newline (set_x (to_int (x (pos c) + 1)) (pos c))) (vram c).

(** The body of [while (space_to_print--)]. *)
Fixpoint tab_loop (space_to_print : nat) (c : console) : console :=
  match space_to_print with
  | O => c
  | S n => tab_loop n (advance (draw BLACK BLACK (code " ") c))
  end.

(** One round of the loop of [printk_color], on the character [current]. *)
Definition put_current (FRcolor BKcolor : Z) (current : ascii) (c : console) : console :=
  match current with
  | "010"%char =>
      mkConsole (set_y (to_int (y (pos c) + 1)) (set_x 0 (pos c))) (vram c)
  | "009"%char =>
      let space_to_print := to_int (8 - Z.rem (x (pos c)) 8) in
      tab_loop (Z.to_nat space_to_print) c
  | "008"%char =>
      let p := set_x (to_int (x (pos c) - 1)) (pos c) in
      let p :=
        if x p <? 0 then
          let p := set_y (to_int (y p - 1)) p in
          if y p <=? 0 then set_x 0 (set_y 0 p) else set_x (max_x p) p
        else p in
      advance (draw FRcolor BKcolor (code " ") (mkConsole p (vram c)))
  | _ => advance (draw FRcolor BKcolor (code current) c)
  end.

(** [printk_color]: format into [buf], then write [buf] to the screen; the
    result is the count [i] and the console it leaves. *)
Definition printk_color (qualifier0 FRcolor BKcolor : Z) (fmt : list ascii) (args : va_list)
    (c : console) : result (Z * console) :=
  f <- vsprintf qualifier0 fmt args ;;
  let len := vsprintf_len f in
  let chars := firstn (Z.to_nat len) (buf f) in
  Ok (Z.of_nat (List.length chars),
      fold_left (fun c current => put_current FRcolor BKcolor current c) chars c).


(** ** Notions the properties are stated with *)

(** A result other than [OutOfFuel]: no step of a directive reports it, only
    the loop does, when it is given too little. *)
Definition fuelled {A : Type} (r : result A) : Prop := r <> Fault OutOfFuel.

(** Two values of [qualifier] that the test [qualifier == 'l'] does not
    tell apart. *)
Definition same_fetch (q q' : Z) : Prop := (q =? code "l") = (q' =? code "l").

(** The five flag characters. *)
Definition is_flag_char (c : ascii) : Prop :=
  c = "-"%char \/ c = "+"%char \/ c = " "%char \/ c = "#"%char \/ c = "0"%char.

(** The console with the cursor on cell [(col, row)]. *)
Definition move_to (col row : Z) (c : console) : console :=
  mkConsole (set_y row (set_x col (pos c))) (vram c).

(** A character [printk_color] hands to [putchar] as it is: not the start
    of a directive and not one of the control characters it interprets. *)
Definition printable (ch : ascii) : Prop :=
  ch <> "%"%char /\ ch <> "010"%char /\ ch <> "009"%char /\ ch <> "008"%char.

(** The position [(col, row)] is on the character grid of [c]. *)
Definition on_grid (col row : Z) (c : console) : Prop :=
  0 <= col <= max_x (pos c) /\ 0 <= row <= max_y (pos c).

(** The grid bounds leave room for the increment of a coordinate. *)
Definition grid_below_int_max (c : console) : Prop :=
  max_x (pos c) < INT_MAX /\ max_y (pos c) < INT_MAX.

(** [c'] has the geometry of [c] and its cursor on the grid. *)
Definition keeps_grid (c c' : console) : Prop :=
  max_x (pos c') = max_x (pos c) /\ max_y (pos c') = max_y (pos c)
  /\ cursor_in_bounds c'.

(** ** [show_color_band]

    Each round stores the four bytes [d c b a] of the pixel at
    [pos.FB_address], lowest address first, and increments [pos.FB_address].
    On the little-endian target the four byte stores make one pixel store of
    the word [band_pixel]. *)
Definition band_pixel (a b c d : Z) : Z :=
  to_uchar d + 2 ^ 8 * to_uchar c + 2 ^ 16 * to_uchar b + 2 ^ 24 * to_uchar a.

Definition set_FB_address (v : Z) (p : screen_info.t) : screen_info.t :=
  screen_info.mk (width p) (height p) (max_x p) (max_y p) (x p) (y p)
    (char_size_x p) (char_size_y p) v (FB_length p).

(** The rounds of [for (int i = 0; i < width * height; ++i)]. *)
Fixpoint show_color_band_loop (rounds : nat) (pixel : Z) (c : console) : console :=
  match rounds with
  | O => c
  | S n =>
      show_color_band_loop n pixel
        (mkConsole (set_FB_address (FB_address (pos c) + 1) (pos c))
                   (vram c ++ [(FB_address (pos c), pixel)]))
  end.

Definition show_color_band (width height a b c d : Z) (con : console) : console :=
  show_color_band_loop (Z.to_nat (to_int (width * height))) (band_pixel a b c d) con.

(** ** The parts of what [write_num] stores *)

(** The sign character, if any. *)
Definition num_sign (flags num : Z) : list ascii :=
  if has flags SIGN && (num <? 0) then ["-"%char]
  else if has flags PLUS then ["+"%char]
  else if has flags SPACE then [" "%char]
  else [].

(** The value that is converted: [-num] for a negative signed [num]. *)
Definition num_magnitude (flags num : Z) : Z :=
  if has flags SIGN && (num <? 0) then to_ll (- num) else num.

Definition num_digit_table (flags : Z) : list ascii :=
  if has flags SMALL then digits_lower else digits_upper.

(** The digits, most significant first. *)
Definition num_digits (flags num base : Z) : list ascii :=
  let m := num_magnitude flags num in
  if m =? 0 then ["0"%char]
  else rev (convert_loop 64 (num_digit_table flags) (ABS m) base).

(** The alternate-form prefix. *)
Definition num_prefix (flags base : Z) : list ascii :=
  if has flags SPECIAL
  then if base =? 16 then ["0"%char; digit_at (num_digit_table flags) 33]
       else if base =? 8 then [digit_at (num_digit_table flags) 24]
       else []
  else [].

(** The length of a list as an integer. *)
Definition len {A : Type} (l : list A) : Z := Z.of_nat (List.length l).

(** [rest] does not start with a decimal digit. *)
Definition no_leading_digit (rest : list ascii) : Prop :=
  match rest with
  | c :: _ => is_digit c = false
  | [] => True
  end.

(** The pixel addresses of scan line [i] of a glyph drawn by
    [putchar p fb Xsize x y]: [char_size_x p] consecutive pixels. *)
Definition scan_line (p : screen_info.t) (fb Xsize x y i : Z) : list Z :=
  map (fun j => fb + to_int (Xsize * to_int (y + i)) + x + Z.of_nat j)
      (seq 0 (Z.to_nat (char_size_x p))).

(** A character at which a directive has no flag, width, precision or
    length qualifier to read: it is looked at as the conversion character. *)
Definition heads_conversion (c : ascii) : Prop :=
  ~ is_flag_char c /\ is_digit c = false
  /\ c <> "*"%char /\ c <> "."%char
  /\ c <> "h"%char /\ c <> "l"%char /\ c <> "L"%char /\ c <> "Z"%char.

(** [t] does not start with the character [d]. *)
Definition not_before_d (t : list ascii) : Prop :=
  match t with
  | c :: _ => c <> "d"%char
  | [] => True
  end.

(** Sample cursors: column 3 of the wide screen, column 1 of the small one,
    and a position one column past the last of the small one. *)
Definition console_col_3 : console := move_to 3 0 console_640x400.
Definition console_past_row : console := move_to 3 2 console_16x32.

(** The value of a digit character: its index in the digit table
    (the length of the table when it is not in it). *)
Fixpoint digit_index (digits : list ascii) (c : ascii) : Z :=
  match digits with
  | [] => 0
  | d :: digits' => if Ascii.eqb d c then 0 else 1 + digit_index digits' c
  end.

(** The number a digit string denotes in base [base], most significant
    digit first. *)
Definition digits_value (digits : list ascii) (base : Z) (ds : list ascii) : Z :=
  fold_left (fun acc c => acc * base + digit_index digits c) ds 0.

(** * Properties *)

(** ** Machine integers *)

Lemma to_int_id (z : Z) : is_int z -> to_int z = z.
Proof.
  unfold is_int, INT_MIN, INT_MAX, to_int, wrap_signed. intros H.
  rewrite Z.mod_small; lia.
Qed.

Lemma to_int_range (z : Z) : is_int (to_int z).
Proof.
  unfold is_int, INT_MIN, INT_MAX, to_int, wrap_signed.
  pose proof (Z.mod_pos_bound (z + 2 ^ (32 - 1)) (2 ^ 32) ltac:(lia)). lia.
Qed.

(** ** The conversion loop of [write_num] empties [num]

    A magnitude below [2^n] is emptied by [n] rounds: more fuel changes
    nothing, and 64 rounds are enough for every [long long]. *)

Lemma convert_loop_fuel (n : nat) : forall digits num base (m : nat),
  2 <= base -> 0 <= num < 2 ^ Z.of_nat n -> (n <= m)%nat ->
  convert_loop m digits num base = convert_loop n digits num base.
Proof.
  induction n as [|n IH]; intros digits num base m Hb Hn Hm.
  - assert (num = 0) by (simpl in Hn; lia). subst num.
    destruct m; reflexivity.
  - destruct m as [|m]; [lia|]. simpl convert_loop.
    destruct (Z.ltb_spec 0 num) as [P | _]; [|reflexivity].
    f_equal. apply IH; [exact Hb | | lia].
    pose proof (Z.quot_rem' num base) as E.
    pose proof (Z.rem_nonneg num base ltac:(lia) ltac:(lia)) as R.
    pose proof (Z.quot_pos num base ltac:(lia) ltac:(lia)) as Q.
    rewrite Nat2Z.inj_succ, Z.pow_succ_r in Hn by lia.
    split; [exact Q | nia].
Qed.

Lemma convert_loop_64_enough digits num base (m : nat) :
  2 <= base -> 0 <= num < 2 ^ 64 -> (64 <= m)%nat ->
  convert_loop m digits num base = convert_loop 64 digits num base.
Proof. intros Hb Hn Hm. apply convert_loop_fuel; [exact Hb | exact Hn | exact Hm]. Qed.

(** ** The loop of [vsprintf] returns: the fuel [vsprintf] supplies is enough *)

Lemma skip_and_atoi_from_length (s : list ascii) : forall ans,
  (List.length (snd (skip_and_atoi_from ans s)) <= List.length s)%nat.
Proof.
  induction s as [|c s IH]; intros ans; simpl; [lia|].
  destruct (is_digit c); simpl; [|lia].
  specialize (IH (to_int (ans * 10 + code c - code "0"))). lia.
Qed.

(** A round of the flag loop either consumes one flag character or stops. *)
Lemma parse_flags_step (flags : Z) (c : ascii) (fmt : list ascii) :
  (exists F, parse_flags flags (c :: fmt) = parse_flags (Z.lor flags F) fmt)
  \/ parse_flags flags (c :: fmt) = (flags, c :: fmt, false).
Proof.
  destruct c as [[] [] [] [] [] [] [] []];
    solve [right; reflexivity | left; eexists; reflexivity].
Qed.

Lemma parse_flags_length (fmt : list ascii) : forall flags,
  (List.length (snd (fst (parse_flags flags fmt))) <= List.length fmt)%nat.
Proof.
  induction fmt as [|c fmt IH]; intros flags; [simpl; lia|].
  destruct (parse_flags_step flags c fmt) as [[F ->] | ->].
  - specialize (IH (Z.lor flags F)). simpl. lia.
  - simpl. lia.
Qed.

Lemma parse_flags_not_break (fmt : list ascii) : forall flags flags' fmt',
  parse_flags flags fmt = (flags', fmt', false) -> fmt' <> [].
Proof.
  induction fmt as [|c fmt IH]; intros flags flags' fmt' H; [discriminate|].
  destruct (parse_flags_step flags c fmt) as [[F E] | E]; rewrite E in H.
  - eauto.
  - inversion H. discriminate.
Qed.

Lemma parse_width_length flags fmt args w flags' fmt' args' :
  parse_width flags fmt args = Ok (w, flags', fmt', args') ->
  (List.length fmt' <= List.length fmt)%nat.
Proof.
  unfold parse_width. destruct fmt as [|c fmt0]; [intros H; inversion H; lia|].
  pose proof (skip_and_atoi_from_length (c :: fmt0) 0) as L.
  unfold skip_and_atoi.
  destruct (skip_and_atoi_from 0 (c :: fmt0)) as [w0 f0]. simpl in L.
  destruct c as [[] [] [] [] [] [] [] []]; simpl;
    try (destruct (va_arg_int args) as [[? ?]|?]; simpl);
    try destruct (w0 <? 0);
    intros H; inversion H; subst; simpl; lia.
Qed.

Lemma parse_precision_length fmt args p fmt' args' :
  parse_precision fmt args = Ok (p, fmt', args') ->
  (List.length fmt' <= List.length fmt)%nat.
Proof.
  unfold parse_precision.
  destruct fmt as [|c fmt1]; [intros H; inversion H; lia|].
  assert (D : c = "."%char \/ parse_precision (c :: fmt1) args = Ok (-1, c :: fmt1, args)).
  { destruct c as [[] [] [] [] [] [] [] []]; solve [left; reflexivity | right; reflexivity]. }
  destruct D as [-> | D].
  - destruct fmt1 as [|c1 fmt2]; [intros H; inversion H; simpl; lia|].
    pose proof (skip_and_atoi_from_length (c1 :: fmt2) 0) as L.
    unfold skip_and_atoi.
    destruct (skip_and_atoi_from 0 (c1 :: fmt2)) as [w0 f0]. simpl in L.
    destruct c1 as [[] [] [] [] [] [] [] []]; simpl;
      try (destruct (va_arg_int args) as [[? ?]|?]; simpl);
      intros H; inversion H; subst; simpl; lia.
  - unfold parse_precision in D. rewrite D. intros H; inversion H; lia.
Qed.

(** [parse_qualifier] either leaves [qualifier] and [fmt] as they are, or
    consumes one character and sets [qualifier] to it whatever it was. *)
Lemma parse_qualifier_cases (fmt : list ascii) :
  (forall q, parse_qualifier q fmt = (q, fmt))
  \/ (exists c fmt', fmt = c :: fmt' /\ forall q, parse_qualifier q fmt = (code c, fmt')).
Proof.
  destruct fmt as [|c fmt']; [left; reflexivity|].
  destruct c as [[] [] [] [] [] [] [] []];
    solve [left; reflexivity | right; eexists _, _; split; reflexivity].
Qed.

Lemma parse_qualifier_length q fmt :
  (List.length (snd (parse_qualifier q fmt)) <= List.length fmt)%nat.
Proof.
  destruct (parse_qualifier_cases fmt) as [E | (c & fmt' & -> & E)]; rewrite E; simpl; lia.
Qed.

Lemma skip_before_d_length fmt fmt' :
  skip_before_d fmt = Ok fmt' ->
  fmt' <> [] /\ (List.length fmt' <= List.length fmt)%nat.
Proof.
  unfold skip_before_d. destruct fmt as [|c f1]; [discriminate|].
  assert (D : (exists f2, f1 = "d"%char :: f2) \/ skip_before_d (c :: f1) = Ok (c :: f1)).
  { destruct f1 as [|c1 f2]; [right; reflexivity|].
    destruct c1 as [[] [] [] [] [] [] [] []];
      solve [right; reflexivity | left; eexists; reflexivity]. }
  destruct D as [[f2 ->] | D].
  - intros H; inversion H; subst. split; [discriminate | simpl; lia].
  - unfold skip_before_d in D. rewrite D. intros H; inversion H; subst.
    split; [discriminate | lia].
Qed.

(** A directive that does not break leaves [fmt] no longer than it found it:
    with the [%] itself, every round of the loop consumes a character. *)
Lemma directive_length fmt q args written r :
  directive fmt q args written = Ok (Some r) ->
  (List.length (r_fmt r) <= List.length fmt)%nat.
Proof.
  unfold directive.
  pose proof (parse_flags_length fmt 0) as L0.
  destruct (parse_flags 0 fmt) as [[flags f0] brk]. simpl in L0.
  destruct brk; [discriminate|].
  destruct (parse_width flags f0 args) as [[[[w fl1] f1] a1]|e] eqn:EW; [|discriminate].
  apply parse_width_length in EW. simpl.
  destruct (parse_precision f1 a1) as [[[p f2] a2]|e] eqn:EP; [|discriminate].
  apply parse_precision_length in EP. simpl.
  pose proof (parse_qualifier_length q f2) as LQ.
  destruct (parse_qualifier q f2) as [q' f3]. simpl in LQ.
  destruct (skip_before_d f3) as [f4|e] eqn:ES; [|discriminate].
  apply skip_before_d_length in ES. destruct ES as [NE LS]. simpl.
  destruct f4 as [|c f5]; [congruence|].
  destruct (conversion c fl1 w p q' a2 written) as [[[o a3] st]|e]; [|discriminate].
  simpl. intros H; inversion H; subst; simpl in *. lia.
Qed.

Lemma fuelled_Ok {A : Type} (a : A) : fuelled (Ok a).
Proof. discriminate. Qed.

Lemma fuelled_bind {A B : Type} (r : result A) (k : A -> result B) :
  fuelled r -> (forall a, fuelled (k a)) -> fuelled (bind r k).
Proof.
  unfold fuelled. destruct r as [a|f]; simpl; intros H K; [apply K|].
  intros E. apply H. inversion E. reflexivity.
Qed.

Lemma fuelled_va_arg_word args : fuelled (va_arg_word args).
Proof. destruct args as [|[] ?]; discriminate. Qed.

Lemma fuelled_va_arg_str args : fuelled (va_arg_str args).
Proof. destruct args as [|[] ?]; discriminate. Qed.

Lemma fuelled_va_arg_double args : fuelled (va_arg_double args).
Proof. destruct args as [|[] ?]; discriminate. Qed.

Lemma fuelled_strlen s : fuelled (strlen s).
Proof. destruct s; discriminate. Qed.

Lemma fuelled_stored r : fuelled (stored r).
Proof. destruct r; discriminate. Qed.

Ltac no_fuel_fault :=
  repeat first
    [ apply fuelled_Ok
    | apply fuelled_va_arg_word | apply fuelled_va_arg_str
    | apply fuelled_va_arg_double | apply fuelled_strlen | apply fuelled_stored
    | apply fuelled_bind; [ | intros ]
    | discriminate
    | match goal with
      | |- fuelled (match ?x with _ => _ end) => destruct x
      | |- fuelled (let '(_, _) := ?x in _) => destruct x
      end ].

Lemma fuelled_va_arg_int args : fuelled (va_arg_int args).
Proof. unfold va_arg_int. no_fuel_fault. Qed.

Lemma fuelled_fetch_signed q args : fuelled (fetch_signed q args).
Proof. unfold fetch_signed, va_arg_ll, va_arg_int. no_fuel_fault. Qed.

Lemma fuelled_fetch_unsigned q args : fuelled (fetch_unsigned q args).
Proof. unfold fetch_unsigned, va_arg_ull, va_arg_uint. no_fuel_fault. Qed.

Lemma fuelled_conversion c flags w p q args written :
  fuelled (conversion c flags w p q args written).
Proof.
  destruct c as [[] [] [] [] [] [] [] []]; cbv beta iota delta [conversion];
    try apply fuelled_Ok;
    unfold va_arg_ptr, va_arg_int;
    repeat first [ apply fuelled_fetch_signed | apply fuelled_fetch_unsigned | progress no_fuel_fault ].
Qed.

Lemma fuelled_parse_width flags fmt args : fuelled (parse_width flags fmt args).
Proof.
  unfold parse_width. destruct fmt as [|c fmt']; [no_fuel_fault|].
  destruct (skip_and_atoi (c :: fmt')) as [w0 g0].
  destruct c as [[] [] [] [] [] [] [] []]; cbv beta iota;
    repeat first [ apply fuelled_va_arg_int | progress no_fuel_fault ].
Qed.

Lemma fuelled_parse_precision fmt args : fuelled (parse_precision fmt args).
Proof.
  unfold parse_precision. destruct fmt as [|c fmt1]; [no_fuel_fault|].
  assert (D : c = "."%char \/ parse_precision (c :: fmt1) args = Ok (-1, c :: fmt1, args)).
  { destruct c as [[] [] [] [] [] [] [] []]; solve [left; reflexivity | right; reflexivity]. }
  destruct D as [-> | D]; [|unfold parse_precision in D; rewrite D; no_fuel_fault].
  destruct fmt1 as [|c1 fmt2]; [no_fuel_fault|].
  destruct (skip_and_atoi (c1 :: fmt2)) as [w0 g0].
  destruct c1 as [[] [] [] [] [] [] [] []]; cbv beta iota;
    repeat first [ apply fuelled_va_arg_int | progress no_fuel_fault ].
Qed.

Lemma fuelled_skip_before_d fmt : fuelled (skip_before_d fmt).
Proof.
  destruct fmt as [|c [|c1 f2]]; try discriminate.
  destruct c1 as [[] [] [] [] [] [] [] []]; discriminate.
Qed.

Lemma fuelled_directive fmt q args written : fuelled (directive fmt q args written).
Proof.
  unfold directive.
  destruct (parse_flags 0 fmt) as [[flags f0] brk]. destruct brk; [no_fuel_fault|].
  apply fuelled_bind; [apply fuelled_parse_width|]. intros [[[w fl1] f1] a1].
  apply fuelled_bind; [apply fuelled_parse_precision|]. intros [[p f2] a2].
  destruct (parse_qualifier q f2) as [q' f3].
  apply fuelled_bind; [apply fuelled_skip_before_d|]. intros [|c f5]; [no_fuel_fault|].
  apply fuelled_bind; [apply fuelled_conversion|]. intros [[o a3] st]. no_fuel_fault.
Qed.

(** With fuel for every character of the template the loop returns what the
    C loop returns. *)
Lemma vsprintf_loop_fuel (fuel : nat) : forall fmt q args out ips,
  (List.length fmt <= fuel)%nat ->
  fuelled (vsprintf_loop fuel fmt q args out ips).
Proof.
  induction fuel as [|fuel IH]; intros fmt q args out ips L.
  - destruct fmt; [discriminate | simpl in L; lia].
  - destruct fmt as [|c fmt]; [discriminate|]. simpl in L. simpl.
    destruct (Ascii.eqb c "%"); [|apply IH; lia].
    pose proof (fuelled_directive fmt q args (Z.of_nat (List.length out))) as F.
    destruct (directive fmt q args (Z.of_nat (List.length out))) as [[r|]|e] eqn:D;
      simpl; [| discriminate | intros E; apply F; inversion E; reflexivity].
    apply directive_length in D. apply IH. lia.
Qed.

Lemma vsprintf_returns q fmt args : fuelled (vsprintf q fmt args).
Proof. apply vsprintf_loop_fuel. lia. Qed.

(** ** [qualifier] matters only through the test [qualifier == 'l'] *)

Lemma conversion_same_fetch c flags w p q q' args written :
  same_fetch q q' ->
  conversion c flags w p q args written = conversion c flags w p q' args written.
Proof.
  unfold same_fetch, conversion, fetch_signed, fetch_unsigned.
  intros H. rewrite H. reflexivity.
Qed.

Lemma directive_same_fetch fmt q q' args written :
  same_fetch q q' ->
  directive fmt q args written = directive fmt q' args written
  \/ exists out ips fmt' args',
       directive fmt q args written = Ok (Some (mkRound out ips fmt' args' q))
       /\ directive fmt q' args written = Ok (Some (mkRound out ips fmt' args' q')).
Proof.
  intros H. unfold directive.
  destruct (parse_flags 0 fmt) as [[flags f0] brk]. destruct brk; [left; reflexivity|].
  destruct (parse_width flags f0 args) as [[[[w fl1] f1] a1]|e]; [|left; reflexivity].
  simpl.
  destruct (parse_precision f1 a1) as [[[p f2] a2]|e]; [|left; reflexivity].
  simpl.
  destruct (parse_qualifier_cases f2) as [E | (c & f3 & -> & E)].
  2:{ left. rewrite (E q), (E q'). reflexivity. }
  rewrite (E q), (E q').
  destruct (skip_before_d f2) as [[|c f4]|e]; simpl; [right | | left; reflexivity].
  - eexists _, _, _, _. split; reflexivity.
  - rewrite (conversion_same_fetch c fl1 w p q q' a2 written H).
    destruct (conversion c fl1 w p q' a2 written) as [[[o a3] st]|e]; simpl;
      [right | left; reflexivity].
    eexists _, _, _, _. split; reflexivity.
Qed.

Lemma vsprintf_loop_same_fetch (fuel : nat) : forall fmt q q' args out ips,
  same_fetch q q' ->
  vsprintf_loop fuel fmt q args out ips = vsprintf_loop fuel fmt q' args out ips.
Proof.
  induction fuel as [|fuel IH]; intros fmt q q' args out ips H;
    destruct fmt as [|c fmt]; try reflexivity.
  simpl. destruct (Ascii.eqb c "%"); [|apply IH; exact H].
  destruct (directive_same_fetch fmt q q' args (Z.of_nat (List.length out)) H)
    as [-> | (o & st & f & a & -> & ->)]; [reflexivity|].
  simpl. apply IH. exact H.
Qed.

(** [vsprintf] started with any [qualifier] behaves as started with ['l']
    or as started with [0]. *)
Lemma vsprintf_qualifier0 q fmt args :
  vsprintf q fmt args = vsprintf (if q =? code "l" then code "l" else 0) fmt args.
Proof.
  apply vsprintf_loop_same_fetch. unfold same_fetch.
  destruct (q =? code "l") eqn:E; [symmetry; reflexivity | reflexivity].
Qed.

(** ** The format engine on the inputs of the specification *)

(** C9. Formatting the signed decimal value 42 with field width 5 yields
    "   42" (right-aligned, space-padded); with width 5 and the left-align
    flag it yields "42   "; with width 5 and the zero-pad flag it yields
    "00042".  This holds whatever [qualifier] holds on entry: the slot of
    the argument is 42 at either width. *)
Theorem format_42_in_width_5 : forall q,
  vsprintf q (str "%5d") [Vword 42] = Ok (mkFormatted (str "   42") [])
  /\ vsprintf q (str "%-5d") [Vword 42] = Ok (mkFormatted (str "42   ") [])
  /\ vsprintf q (str "%05d") [Vword 42] = Ok (mkFormatted (str "00042") []).
Proof.
  intros q. rewrite !(vsprintf_qualifier0 q).
  destruct (q =? code "l"); repeat split; vm_compute; reflexivity.
Qed.

(** The same three outputs, at [write_num] itself. *)
Lemma write_num_42_in_width_5 :
  write_num 42 10 5 (-1) SIGN = Some (str "   42")
  /\ write_num 42 10 5 (-1) (Z.lor LEFT SIGN) = Some (str "42   ")
  /\ write_num 42 10 5 (-1) (Z.lor PAD_ZERO SIGN) = Some (str "00042").
Proof. repeat split; vm_compute; reflexivity. Qed.

(** C2, on the code.  The specification has a [%p] without a width default
    to a width of twice the pointer size, zero-padded.  The code tests
    [field_width == 0], but a width that is not given is [-1]: the pointer
    [0x1234] under "%p" is stored as "1234", without any padding. *)
Theorem pointer_without_width_is_not_padded : forall q,
  vsprintf q (str "%p") [Vword 4660] = Ok (mkFormatted (str "1234") []).
Proof. intros q. vm_compute. reflexivity. Qed.

(** The default is taken when the width is given as 0 through [*]. *)
Lemma pointer_with_width_0_is_padded : forall q,
  vsprintf q (str "%*p") [Vword 0; Vword 4660]
  = Ok (mkFormatted (str "0000000000001234") []).
Proof. intros q. vm_compute. reflexivity. Qed.

(** C3, on the code.  The specification has [%lu] print the unsigned value
    itself.  [write_num] receives it as a [long long] and takes [ABS] of it:
    for [v = 2^64 - 1] the digits stored are those of [1]. *)
Theorem unsigned_long_max_prints_1 : forall q,
  vsprintf q (str "%lu") [Vword (2 ^ 64 - 1)] = Ok (mkFormatted (str "1") []).
Proof. intros q. vm_compute. reflexivity. Qed.

(** Below [2^63] the digits are those of the value. *)
Lemma unsigned_long_small_prints_itself : forall q,
  vsprintf q (str "%lu") [Vword (2 ^ 63 - 1)]
  = Ok (mkFormatted (str "9223372036854775807") []).
Proof. intros q. vm_compute. reflexivity. Qed.

(** C5, on the code.  The specification has no part of a directive's parse
    state persist into a later directive.  [qualifier] is assigned only when
    a qualifier character is read and never reset: after "%ld" the following
    "%d" fetches a [long long].  The [int] argument [-1], whose slot holds
    [0x00000000FFFFFFFF], is printed as 4294967295; a "%d" on its own, entered
    with a [qualifier] other than ['l'], prints it as -1. *)
Theorem long_qualifier_persists : forall q,
  vsprintf q (str "%ld%d") [Vword 1; Vword 4294967295]
  = Ok (mkFormatted (str "14294967295") [])
  /\ vsprintf 0 (str "%d") [Vword 4294967295] = Ok (mkFormatted (str "-1") []).
Proof. intros q. split; vm_compute; reflexivity. Qed.

(** The round of a directive hands the qualifier it read to the next. *)
Lemma directive_hands_on_qualifier : forall q args written,
  directive (str "ld%d") q (Vword 1 :: args) written
  = Ok (Some (mkRound (str "1") [] (str "%d") args (code "l"))).
Proof. intros. vm_compute. reflexivity. Qed.

(** C6, on the code.  The specification has a null [%s] argument treated as
    an empty string and never dereferenced.  [s = '\0'] leaves [s] null and
    [strlen(s)] reads through it, for every flag set, width and precision. *)
Theorem null_string_is_dereferenced : forall flags w p q args written,
  conversion "s" flags w p q (Vstr None :: args) written = Fault NullDereference
  /\ vsprintf q (str "%s") [Vstr None] = Fault NullDereference.
Proof. intros. split; reflexivity. Qed.

(** ** A template that ends inside the flags of a directive *)

Lemma parse_flags_to_the_end (fl : list ascii) :
  Forall is_flag_char fl ->
  forall flags, exists flags', parse_flags flags fl = (flags', [], true).
Proof.
  induction 1 as [|c fl Hc _ IH]; intros flags; [eexists; reflexivity|].
  destruct Hc as [-> | [-> | [-> | [-> | ->]]]]; simpl; apply IH.
Qed.

(** The directive is abandoned: the loop stops with what was stored before. *)
Lemma truncated_directive_breaks (fuel : nat) (fl : list ascii) q args out ips :
  Forall is_flag_char fl ->
  vsprintf_loop (S fuel) ("%"%char :: fl) q args out ips = Ok (mkFormatted out ips).
Proof.
  intros H. simpl. unfold directive.
  destruct (parse_flags_to_the_end fl H 0) as [flags' ->]. reflexivity.
Qed.

Lemma vsprintf_loop_literal (lit : list ascii) : forall fuel rest q args out ips,
  ~ In "%"%char lit ->
  vsprintf_loop (List.length lit + fuel) (lit ++ rest) q args out ips
  = vsprintf_loop fuel rest q args (out ++ lit) ips.
Proof.
  induction lit as [|c lit IH]; intros fuel rest q args out ips H; simpl.
  - rewrite app_nil_r. reflexivity.
  - destruct (Ascii.eqb_spec c "%") as [-> | _]; [exfalso; apply H; left; reflexivity|].
    rewrite IH by (intros I; apply H; right; exact I).
    rewrite <- app_assoc. reflexivity.
Qed.

(** C7, as the code has it.  For every template that ends immediately after
    a [%] character, possibly with flags consumed, the engine stores nothing
    for that directive and stops; the preceding literal text is preserved:
    "abc%" yields "abc".  More generally the loop, on reaching such a
    directive, returns what it has stored until then. *)
Theorem truncated_directive_emits_nothing : forall q lit fl args,
  ~ In "%"%char lit ->
  Forall is_flag_char fl ->
  vsprintf q (lit ++ "%"%char :: fl) args = Ok (mkFormatted lit [])
  /\ (forall fuel q' args' out ips,
        vsprintf_loop (S fuel) ("%"%char :: fl) q' args' out ips
        = Ok (mkFormatted out ips)).
Proof.
  intros q lit fl args Hlit Hfl. split.
  - unfold vsprintf.
    rewrite length_app. rewrite vsprintf_loop_literal by exact Hlit.
    simpl List.length. apply truncated_directive_breaks. exact Hfl.
  - intros fuel q' args' out ips. apply truncated_directive_breaks. exact Hfl.
Qed.

(** ** The console writer *)

Lemma on_grid_test x y c :
  ((0 <=? x) && (x <=? max_x (pos c))) && ((0 <=? y) && (y <=? max_y (pos c))) = true
  <-> on_grid x y c.
Proof. unfold on_grid. rewrite !andb_true_iff, !Z.leb_le. reflexivity. Qed.

Lemma set_printk_pos_on_grid x y c :
  on_grid x y c -> set_printk_pos x y c = (0, move_to x y c).
Proof.
  intros H. apply on_grid_test in H. unfold set_printk_pos. rewrite H. reflexivity.
Qed.

Lemma set_printk_pos_off_grid x y c :
  ~ on_grid x y c -> set_printk_pos x y c = (EPOS_OVERFLOW, c).
Proof.
  intros H. unfold set_printk_pos.
  destruct (((0 <=? x) && (x <=? max_x (pos c))) && ((0 <=? y) && (y <=? max_y (pos c))))
    eqn:E; [|reflexivity].
  apply on_grid_test in E. contradiction.
Qed.

Lemma on_grid_dec x y c : on_grid x y c \/ ~ on_grid x y c.
Proof. unfold on_grid. lia. Qed.

(** C8. For all integers [x] and [y], [set_printk_pos x y] succeeds, that is
    returns 0 and sets the cursor to [(x, y)], if and only if
    [0 <= x <= max_x] and [0 <= y <= max_y]; otherwise it returns the
    position-overflow status and leaves the cursor and all other screen state
    unchanged.  The status is a macro of the absent header; it is taken to
    differ from 0, the status of success. *)
Theorem set_printk_pos_succeeds_iff_on_grid :
  EPOS_OVERFLOW <> 0 ->
  forall x y c,
    (on_grid x y c <->
       fst (set_printk_pos x y c) = 0 /\ cursor (snd (set_printk_pos x y c)) = (x, y))
    /\ (on_grid x y c -> set_printk_pos x y c = (0, move_to x y c))
    /\ (~ on_grid x y c -> set_printk_pos x y c = (EPOS_OVERFLOW, c)).
Proof.
  intros HE x y c. split; [|split].
  - split.
    + intros H. rewrite (set_printk_pos_on_grid x y c H). split; reflexivity.
    + intros [H0 _]. destruct (on_grid_dec x y c) as [H | H]; [exact H|].
      rewrite (set_printk_pos_off_grid x y c H) in H0. simpl in H0. contradiction.
  - apply set_printk_pos_on_grid.
  - apply set_printk_pos_off_grid.
Qed.

(** The branches of [printk_color] that call [auto_newline] leave the cursor
    on the grid. *)
Lemma advance_keeps_grid c0 c :
  grid_below_int_max c0 -> keeps_grid c0 c -> keeps_grid c0 (advance c).
Proof.
  unfold grid_below_int_max, keeps_grid, cursor_in_bounds, advance, auto_newline.
  intros [Bx By] (Ex & Ey & [Hx Hy]). destruct c as [p v].
  destruct p as [w h mx my cx cy sx sy fb fl]. simpl in *.
  rewrite (to_int_id (cx + 1)) by (unfold is_int, INT_MIN, INT_MAX in *; lia).
  destruct (Z.ltb_spec mx (cx + 1)); simpl.
  - rewrite (to_int_id (cy + 1)) by (unfold is_int, INT_MIN, INT_MAX in *; lia).
    destruct (Z.ltb_spec my (cy + 1)); simpl; lia.
  - destruct (Z.ltb_spec my cy); simpl; lia.
Qed.

Lemma draw_keeps_grid FRcolor BKcolor font c0 c :
  keeps_grid c0 c -> keeps_grid c0 (draw FRcolor BKcolor font c).
Proof. intros H. exact H. Qed.

Lemma tab_loop_keeps_grid (n : nat) : forall c0 c,
  grid_below_int_max c0 -> keeps_grid c0 c -> keeps_grid c0 (tab_loop n c).
Proof.
  induction n as [|n IH]; intros c0 c B H; simpl; [exact H|].
  apply IH; [exact B|]. apply advance_keeps_grid; [exact B|].
  apply draw_keeps_grid. exact H.
Qed.

Lemma backspace_keeps_grid FRcolor BKcolor c :
  grid_below_int_max c -> cursor_in_bounds c ->
  keeps_grid c (put_current FRcolor BKcolor "008" c).
Proof.
  intros B H. unfold put_current.
  apply advance_keeps_grid; [exact B|]. apply draw_keeps_grid.
  unfold grid_below_int_max, keeps_grid, cursor_in_bounds in *.
  destruct B as [Bx By]. destruct H as [Hx Hy]. destruct c as [p v].
  destruct p as [w h mx my cx cy sx sy fb fl]. simpl in *.
  rewrite (to_int_id (cx - 1)) by (unfold is_int, INT_MIN, INT_MAX in *; lia).
  destruct (Z.ltb_spec (cx - 1) 0); simpl; [|lia].
  rewrite (to_int_id (cy - 1)) by (unfold is_int, INT_MIN, INT_MAX in *; lia).
  destruct (Z.leb_spec (cy - 1) 0); simpl; lia.
Qed.

(** Every character but the newline leaves the cursor on the grid. *)
Lemma put_current_keeps_grid FRcolor BKcolor current c :
  current <> "010"%char ->
  grid_below_int_max c -> cursor_in_bounds c ->
  keeps_grid c (put_current FRcolor BKcolor current c).
Proof.
  intros N B H.
  assert (K : keeps_grid c c) by (repeat split; apply H).
  assert (D : current = "010"%char \/ current = "009"%char \/ current = "008"%char
              \/ put_current FRcolor BKcolor current c
                 = advance (draw FRcolor BKcolor (code current) c)).
  { destruct current as [[] [] [] [] [] [] [] []]; auto. }
  destruct D as [E | [-> | [-> | ->]]]; [contradiction | | |].
  - apply tab_loop_keeps_grid; assumption.
  - apply backspace_keeps_grid; assumption.
  - apply advance_keeps_grid; [exact B|]. apply draw_keeps_grid. exact K.
Qed.

(** C1, on the code.  The specification has the cursor on the grid after
    every public operation.  The newline branch of [printk_color] increments
    [pos.y] without the call of [auto_newline] its three sibling branches
    make: on a 16 by 32 screen with 8 by 16 cells ([max_y = 2]), a newline
    printed on row 2 leaves the cursor on row 3. *)
Theorem newline_on_last_row_leaves_grid : forall q FRcolor BKcolor c0,
  exists c1 c2 c3,
    init_printk 16 32 0 512 8 16 c0 = Ok (0, c1)
    /\ set_printk_pos 0 2 c1 = (0, c2)
    /\ printk_color q FRcolor BKcolor ["010"%char] [] c2 = Ok (1, c3)
    /\ cursor_in_bounds c2
    /\ cursor c3 = (0, 3) /\ max_y (pos c3) = 2
    /\ ~ cursor_in_bounds c3.
Proof.
  intros q FRcolor BKcolor c0.
  exists (mkConsole (screen_info.mk 16 32 2 2 0 0 8 16 0 512) (vram c0)),
         (mkConsole (screen_info.mk 16 32 2 2 0 2 8 16 0 512) (vram c0)),
         (mkConsole (screen_info.mk 16 32 2 2 0 3 8 16 0 512) (vram c0)).
  split; [reflexivity|]. split; [reflexivity|]. split; [reflexivity|].
  split; [unfold cursor_in_bounds; simpl; lia|].
  split; [reflexivity|]. split; [reflexivity|].
  unfold cursor_in_bounds; simpl. lia.
Qed.

(** C4, on the code.  The specification has a backspace in column 0 of any
    row [y >= 1] move to the end of the previous row.  The code tests
    [pos.y <= 0] after the decrement, so from row 1 it resets to [(0,0)]:
    the space glyph is drawn from pixel [(0,0)], not from the pixel column
    [max_x * 8 = 16] of cell [(max_x, 0)], and the cursor is left on [(1,0)]. *)
Theorem backspace_at_row_1_resets_to_origin : forall q FRcolor BKcolor c0,
  exists c1 c2 c3,
    init_printk 16 32 0 512 8 16 c0 = Ok (0, c1)
    /\ set_printk_pos 0 1 c1 = (0, c2)
    /\ printk_color q FRcolor BKcolor ["008"%char] [] c2 = Ok (1, c3)
    /\ max_x (pos c2) = 2
    /\ vram c3 = vram c0 ++ putchar (pos c2) 0 16 0 0 FRcolor BKcolor (code " ")
    /\ cursor c3 = (1, 0).
Proof.
  intros q FRcolor BKcolor c0. eexists _, _, _.
  repeat (split; [reflexivity|]). reflexivity.
Qed.

(** From row 2 the same backspace does go to the end of the previous row:
    the glyph is drawn from pixel [(16, 16)], cell [(max_x, 1)], and the
    advance wraps the cursor back to [(0, 2)]. *)
Lemma backspace_at_row_2_goes_to_previous_row : forall q FRcolor BKcolor c0,
  exists c1 c2 c3,
    init_printk 16 32 0 512 8 16 c0 = Ok (0, c1)
    /\ set_printk_pos 0 2 c1 = (0, c2)
    /\ printk_color q FRcolor BKcolor ["008"%char] [] c2 = Ok (1, c3)
    /\ vram c3 = vram c0 ++ putchar (pos c2) 0 16 16 16 FRcolor BKcolor (code " ")
    /\ cursor c3 = (0, 2).
Proof.
  intros q FRcolor BKcolor c0. eexists _, _, _.
  repeat (split; [reflexivity|]). reflexivity.
Qed.

(** ** The pixels of a glyph *)

Lemma putchar_cols_address (n : nat) : forall font_byte testbit addr FRcolor BKcolor j,
  (j < n)%nat ->
  In (addr + Z.of_nat j) (map fst (putchar_cols n font_byte testbit addr FRcolor BKcolor)).
Proof.
  induction n as [|n IH]; intros font_byte testbit addr FRcolor BKcolor j Hj; [lia|].
  simpl. destruct j as [|j].
  - left. simpl. lia.
  - right. replace (addr + Z.of_nat (S j)) with ((addr + 1) + Z.of_nat j) by lia.
    apply IH. lia.
Qed.

Lemma putchar_rows_address (n : nat) : forall i0 p fb Xsize x y FRcolor BKcolor font k j,
  (k < n)%nat -> (j < Z.to_nat (char_size_x p))%nat ->
  In (fb + to_int (Xsize * to_int (y + (i0 + Z.of_nat k))) + x + Z.of_nat j)
     (map fst (putchar_rows n i0 p fb Xsize x y FRcolor BKcolor font)).
Proof.
  induction n as [|n IH]; intros i0 p fb Xsize x y FRcolor BKcolor font k j Hk Hj; [lia|].
  simpl. rewrite map_app. apply in_or_app. destruct k as [|k].
  - left. replace (i0 + Z.of_nat 0) with i0 by lia.
    apply putchar_cols_address. exact Hj.
  - right. replace (i0 + Z.of_nat (S k)) with ((i0 + 1) + Z.of_nat k) by lia.
    apply IH; [lia | exact Hj].
Qed.

(** [putchar] stores to column [j] of scan line [i] of the glyph. *)
Lemma putchar_address p fb Xsize x y FRcolor BKcolor font i j :
  0 <= i < char_size_y p -> 0 <= j < char_size_x p ->
  In (fb + to_int (Xsize * to_int (y + i)) + x + j)
     (map fst (putchar p fb Xsize x y FRcolor BKcolor font)).
Proof.
  intros Hi Hj. unfold putchar.
  pose proof (putchar_rows_address (Z.to_nat (char_size_y p)) 0 p fb Xsize x y
                FRcolor BKcolor font (Z.to_nat i) (Z.to_nat j)) as H.
  rewrite !Z2Nat.id in H by lia. simpl in H. apply H; lia.
Qed.

(** A one-character template of a printable character draws its glyph at
    the cursor and advances. *)
Lemma printk_color_printable q FRcolor BKcolor ch c :
  printable ch ->
  printk_color q FRcolor BKcolor [ch] [] c
  = Ok (1, advance (draw FRcolor BKcolor (code ch) c)).
Proof.
  intros (H0 & H1 & H2 & H3). unfold printk_color, vsprintf. simpl.
  destruct (Ascii.eqb_spec ch "%") as [E | _]; [contradiction|]. simpl.
  unfold put_current.
  destruct ch as [[] [] [] [] [] [] [] []]; try reflexivity; congruence.
Qed.

Lemma vram_advance_draw FRcolor BKcolor font c :
  vram (advance (draw FRcolor BKcolor font c))
  = vram c ++ putchar (pos c) (FB_address (pos c)) (width (pos c))
                (to_int (x (pos c) * char_size_x (pos c)))
                (to_int (y (pos c) * char_size_y (pos c))) FRcolor BKcolor font.
Proof. reflexivity. Qed.

(** The grid [init_printk] computes: the geometry as given, and the
    quotients of C's division. *)
Lemma init_printk_geometry w h fb len csx csy c0 st c :
  init_printk w h fb len csx csy c0 = Ok (st, c) ->
  csx <> 0 /\ csy <> 0 /\ st = 0
  /\ pos c = screen_info.mk w h (to_int (Z.quot w csx)) (to_int (Z.quot h csy)) 0 0
               csx csy fb len
  /\ vram c = vram c0.
Proof.
  unfold init_printk, calculate_max_charNum.
  destruct (Z.eqb_spec csx 0) as [|Hx]; [discriminate|].
  destruct (Z.eqb_spec csy 0) as [|Hy]; [discriminate|].
  simpl. intros H. inversion H. subst. simpl. auto.
Qed.

(** The last column of cell [max_x] is at or past the width of the row. *)
Lemma last_column_past_width w csx :
  0 < csx -> w <= Z.quot w csx * csx + csx - 1.
Proof.
  intros H. pose proof (Z.quot_rem' w csx) as E.
  pose proof (Z.rem_bound_abs w csx ltac:(lia)) as B. lia.
Qed.

Lemma quot_is_int w csx : 0 < csx -> is_int w -> is_int (Z.quot w csx).
Proof.
  unfold is_int, INT_MIN, INT_MAX. intros H Hw.
  pose proof (Z.quot_rem' w csx) as E.
  pose proof (Z.rem_bound_abs w csx ltac:(lia)) as B.
  destruct (Z.le_gt_cases 0 w) as [P | N].
  - pose proof (Z.quot_pos w csx P H).
    pose proof (Z.rem_nonneg w csx ltac:(lia) P). nia.
  - pose proof (Z.quot_opp_l w csx ltac:(lia)) as O.
    pose proof (Z.quot_pos (- w) csx ltac:(lia) H).
    pose proof (Z.rem_nonpos w csx ltac:(lia) ltac:(lia)). nia.
Qed.

Lemma quot_mul_is_int w csx : 0 < csx -> is_int w -> is_int (Z.quot w csx * csx).
Proof.
  unfold is_int, INT_MIN, INT_MAX. intros H Hw.
  pose proof (Z.quot_rem' w csx) as E.
  destruct (Z.le_gt_cases 0 w) as [P | N].
  - pose proof (Z.rem_nonneg w csx ltac:(lia) P).
    pose proof (Z.quot_pos w csx P H). nia.
  - pose proof (Z.rem_nonpos w csx ltac:(lia) ltac:(lia)).
    pose proof (Z.quot_opp_l w csx ltac:(lia)) as O.
    pose proof (Z.quot_pos (- w) csx ltac:(lia) H). nia.
Qed.

(** C10. Because [max_x = width / char_size_x] and cell column [max_x] is an
    allowed cursor position, rendering a printable character at cell column
    [x = max_x] stores to pixels whose offset within the row reaches
    [max_x * char_size_x + char_size_x - 1 >= width], for every geometry
    [init_printk] accepts with [char_size_x > 0]: every scan line of the
    glyph extends past the visible row.  On the last row of the grid,
    [y = max_y], when the glyph has a scan line and [putchar]'s [int]
    arithmetic on the screen extent does not overflow, a store lies at or
    past the extent [width * height] of the frame buffer.  Column [max_x]
    of every row of the grid is a position [set_printk_pos] accepts. *)
Theorem glyph_at_max_x_overruns_row :
  forall w h fb len csx csy c0 st c q FRcolor BKcolor ch,
    0 < csx -> is_int w -> printable ch ->
    init_printk w h fb len csx csy c0 = Ok (st, c) ->
    let last := max_x (pos c) * csx + csx - 1 in
    w <= last
    /\ (forall row i, 0 <= i < csy ->
          exists c',
            printk_color q FRcolor BKcolor [ch] [] (move_to (max_x (pos c)) row c)
            = Ok (1, c')
            /\ In (fb + to_int (w * to_int (to_int (row * csy) + i)) + last)
                  (map fst (vram c')))
    /\ (0 < csy -> 0 <= w -> 0 <= h -> is_int (h + csy) -> is_int (w * (h + csy)) ->
          exists c' a,
            printk_color q FRcolor BKcolor [ch] []
              (move_to (max_x (pos c)) (max_y (pos c)) c) = Ok (1, c')
            /\ In a (map fst (vram c'))
            /\ fb + w * h <= a)
    /\ (0 <= w -> forall row, 0 <= row <= max_y (pos c) ->
          set_printk_pos (max_x (pos c)) row c = (0, move_to (max_x (pos c)) row c)).
Proof.
  intros w h fb len csx csy c0 st c q FRcolor BKcolor ch Hx Hw Hch Hinit.
  assert (Hset : 0 <= w -> forall row, 0 <= row <= max_y (pos c) ->
            set_printk_pos (max_x (pos c)) row c = (0, move_to (max_x (pos c)) row c)).
  { intros Hw0 row Hrow. apply set_printk_pos_on_grid. unfold on_grid.
    split; [|exact Hrow].
    destruct (init_printk_geometry _ _ _ _ _ _ _ _ _ Hinit) as (_ & _ & _ & Hpos & _).
    rewrite Hpos. simpl.
    rewrite (to_int_id (Z.quot w csx)) by (apply quot_is_int; assumption).
    pose proof (Z.quot_pos w csx Hw0 Hx). lia. }
  revert Hset.
  destruct (init_printk_geometry _ _ _ _ _ _ _ _ _ Hinit) as (_ & Hy & _ & Hpos & _).
  rewrite Hpos. simpl max_x. simpl max_y.
  rewrite (to_int_id (Z.quot w csx)) by (apply quot_is_int; assumption).
  intros Hset last. subst last.
  pose proof (last_column_past_width w csx Hx) as Hlast.
  assert (Hdraw : forall row i, 0 <= i < csy ->
            In (fb + to_int (w * to_int (to_int (row * csy) + i))
                + (Z.quot w csx * csx + csx - 1))
               (map fst (vram (advance (draw FRcolor BKcolor (code ch)
                                          (move_to (Z.quot w csx) row c)))))).
  { intros row i Hi. rewrite vram_advance_draw. rewrite map_app. apply in_or_app. right.
    unfold move_to. simpl pos. rewrite Hpos. simpl.
    rewrite (to_int_id (Z.quot w csx * csx)) by (apply quot_mul_is_int; assumption).
    replace (fb + to_int (w * to_int (to_int (row * csy) + i))
             + (Z.quot w csx * csx + csx - 1))
      with (fb + to_int (w * to_int (to_int (row * csy) + i))
            + Z.quot w csx * csx + (csx - 1)) by lia.
    apply putchar_address; simpl; lia. }
  split; [exact Hlast|]. split; [|split; [|exact Hset]].
  - intros row i Hi. eexists. split; [apply printk_color_printable; exact Hch|].
    apply Hdraw. exact Hi.
  - intros Hcy Hw0 Hh0 Hext Hprod.
    eexists. exists (fb + to_int (w * to_int (to_int (to_int (Z.quot h csy) * csy) + (csy - 1)))
                     + (Z.quot w csx * csx + csx - 1)).
    split; [apply printk_color_printable; exact Hch|].
    split; [apply Hdraw; lia|].
    assert (Hh : is_int h) by (unfold is_int, INT_MIN, INT_MAX in *; lia).
    pose proof (quot_is_int h csy Hcy Hh) as Hq.
    pose proof (quot_mul_is_int h csy Hcy Hh) as Hqm.
    pose proof (last_column_past_width h csy Hcy) as Hrow.
    pose proof (Z.quot_rem' h csy) as E.
    pose proof (Z.rem_nonneg h csy ltac:(lia) Hh0) as R.
    rewrite (to_int_id (Z.quot h csy)) by exact Hq.
    rewrite (to_int_id (Z.quot h csy * csy)) by exact Hqm.
    assert (Hle : Z.quot h csy * csy + (csy - 1) <= h + csy) by lia.
    assert (H0 : 0 <= Z.quot h csy * csy + (csy - 1)) by lia.
    rewrite (to_int_id (Z.quot h csy * csy + (csy - 1)))
      by (unfold is_int, INT_MIN, INT_MAX in *; lia).
    rewrite (to_int_id (w * (Z.quot h csy * csy + (csy - 1))))
      by (unfold is_int, INT_MIN, INT_MAX in *; nia).
    nia.
Qed.


(** * Further properties of the code *)

(** ** The loop of [vsprintf] does not depend on spare fuel *)

Lemma vsprintf_loop_spare_fuel (n : nat) : forall m fmt q args out ips,
  (List.length fmt <= n)%nat -> (List.length fmt <= m)%nat ->
  vsprintf_loop n fmt q args out ips = vsprintf_loop m fmt q args out ips.
Proof.
  induction n as [|n IH]; intros m fmt q args out ips Hn Hm.
  - destruct fmt; [destruct m; reflexivity | simpl in Hn; lia].
  - destruct fmt as [|c fmt]; [destruct m; reflexivity|].
    destruct m as [|m]; [simpl in Hm; lia|]. simpl in Hn, Hm. simpl.
    destruct (Ascii.eqb c "%"); [|apply IH; lia].
    destruct (directive fmt q args (Z.of_nat (List.length out))) as [[r|]|e] eqn:D;
      simpl; try reflexivity.
    apply directive_length in D. apply IH; lia.
Qed.

(** One round of the loop on a [%]. *)
Lemma vsprintf_loop_at_directive (n : nat) fmt q args out ips :
  vsprintf_loop (S n) ("%"%char :: fmt) q args out ips
  = (d <- directive fmt q args (Z.of_nat (List.length out)) ;;
     match d with
     | None => Ok (mkFormatted out ips)
     | Some r =>
         vsprintf_loop n (r_fmt r) (r_qualifier r) (r_args r)
           (out ++ r_out r) (ips ++ r_ips r)
     end).
Proof. reflexivity. Qed.

(** ** Literal text *)

(** X6. A template without [%] is copied to the buffer as it is, whatever
    the arguments and the initial [qualifier]; no argument is fetched. *)
Theorem vsprintf_copies_literal_text : forall q lit args,
  ~ In "%"%char lit ->
  vsprintf q lit args = Ok (mkFormatted lit []).
Proof.
  intros q lit args H. unfold vsprintf.
  pose proof (vsprintf_loop_literal lit 0 [] q args [] [] H) as L.
  rewrite app_nil_r, Nat.add_0_r in L. exact L.
Qed.

(** ** The comma in the test before the conversion *)

Lemma directive_at_conversion c fmt q args written :
  heads_conversion c ->
  directive (c :: fmt) q args written
  = (fmt' <- skip_before_d (c :: fmt) ;;
     match fmt' with
     | [] => Ok (Some (mkRound ["%"%char] [] [] args q))
     | c' :: fmt'' =>
         '(out, args', ips) <- conversion c' 0 (-1) (-1) q args written ;;
         Ok (Some (mkRound out ips fmt'' args' q))
     end).
Proof.
  intros (HF & HD & H1 & H2 & H3 & H4 & H5 & H6).
  destruct c as [[] [] [] [] [] [] [] []];
    try reflexivity; try discriminate HD; try congruence;
    exfalso; apply HF; unfold is_flag_char;
    first [ left; reflexivity | right; left; reflexivity
          | right; right; left; reflexivity
          | right; right; right; left; reflexivity
          | right; right; right; right; reflexivity ].
Qed.

(** X7. The test before the conversion is
    [(qualifier == 'l' && *fmt == 'l', *(fmt + 1) == 'd')], whose value is
    that of [*(fmt + 1) == 'd']: a conversion character followed by [d] is
    skipped, and the directive is formatted as [%d].  So "%sd", "%xd" or
    "%%d" each fetch an [int] and print it in decimal. *)
Theorem conversion_before_d_is_skipped : forall q c rest args,
  heads_conversion c -> not_before_d rest ->
  vsprintf q ("%"%char :: c :: "d"%char :: rest) args
  = vsprintf q ("%"%char :: "d"%char :: rest) args.
Proof.
  intros q c rest args Hc Hrest. unfold vsprintf.
  cbn [List.length]. rewrite !vsprintf_loop_at_directive.
  rewrite (directive_at_conversion c ("d"%char :: rest) q args _ Hc).
  assert (Hd : heads_conversion "d").
  { repeat split; try discriminate.
    intros [H | [H | [H | [H | H]]]]; discriminate H. }
  rewrite (directive_at_conversion "d" rest q args _ Hd).
  assert (E : skip_before_d ("d"%char :: rest) = Ok ("d"%char :: rest)).
  { destruct rest as [|c1 r]; [reflexivity|]. simpl in Hrest.
    destruct c1 as [[] [] [] [] [] [] [] []]; try reflexivity. congruence. }
  rewrite E. cbn [skip_before_d bind].
  destruct (conversion "d" 0 (-1) (-1) q args _)
    as [[[o a] st]|e]; cbn [bind r_fmt r_qualifier r_args r_out r_ips]; [|reflexivity].
  apply vsprintf_loop_spare_fuel; lia.
Qed.

(** X19. The value [qualifier] holds on entry is only ever compared with
    ['l']: two calls whose initial values agree on that test return the
    same result. *)
Theorem initial_qualifier_only_tested_against_l : forall q q' fmt args,
  same_fetch q q' -> vsprintf q fmt args = vsprintf q' fmt args.
Proof. intros q q' fmt args H. apply vsprintf_loop_same_fetch. exact H. Qed.

(** ** The directives [%s], [%c] and [%n] *)

Lemma repeat_none {A : Type} (a : A) (z : Z) : z <= 0 -> repeat a (Z.to_nat z) = [].
Proof. intros H. replace (Z.to_nat z) with 0%nat by lia. reflexivity. Qed.

Lemma pad_while_len_fst c l fw :
  fst (pad_while_len c l fw) = repeat c (Z.to_nat (fw - l)).
Proof.
  unfold pad_while_len. destruct (Z.ltb_spec l fw); simpl; [reflexivity|].
  rewrite repeat_none by lia. reflexivity.
Qed.

Lemma pad_while_len_snd c l fw :
  INT_MIN < l <= INT_MAX -> INT_MIN < fw -> snd (pad_while_len c l fw) < l.
Proof.
  intros Hl Hf. unfold pad_while_len. destruct (Z.ltb_spec l fw); simpl;
    rewrite to_int_id by (unfold is_int, INT_MIN, INT_MAX in *; lia); lia.
Qed.

(** X8. [%s] of a string [s] stores the first [n] characters of [s], where
    [n] is the length of [s], or the precision when one is given and is
    smaller; spaces fill the field up to its width, before the text or,
    with the left flag, after it.  The text is never cut by the width. *)
Theorem string_directive_pads_and_truncates : forall flags w p q s args written,
  len s <= INT_MAX -> - 2 ^ 30 <= w <= 2 ^ 30 ->
  let n := if p <? 0 then len s else Z.min p (len s) in
  let text := firstn (Z.to_nat n) s in
  let fill := repeat " "%char (Z.to_nat (w - n)) in
  conversion "s" flags w p q (Vstr (Some s) :: args) written
  = Ok (if has flags LEFT then text ++ fill else fill ++ text, args, [])
  /\ len text = n
  /\ len (if has flags LEFT then text ++ fill else fill ++ text) = Z.max w n.
Proof.
  intros flags w p q s args written Hs Hw n text fill.
  assert (H0 : 0 <= len s) by (unfold len; lia).
  assert (Hn : 0 <= n <= len s) by (unfold n; destruct (Z.ltb_spec p 0); lia).
  assert (Lt : len text = n).
  { unfold text, len. rewrite length_firstn. unfold len in *. lia. }
  split; [|split; [exact Lt|]].
  - unfold conversion. cbn [va_arg_str bind strlen]. fold (len s).
    rewrite (to_int_id (len s)) by (unfold is_int, INT_MIN, INT_MAX in *; lia).
    assert (E : (if p <? 0 then len s else if p <? len s then p else len s) = n).
    { unfold n. destruct (Z.ltb_spec p 0); [reflexivity|].
      destruct (Z.ltb_spec p (len s)); lia. }
    rewrite E. fold text.
    destruct (has flags LEFT).
    + pose proof (pad_while_len_fst " " n w) as F.
      destruct (pad_while_len " " n w) as [t r]. cbn [fst] in F. subst t. reflexivity.
    + pose proof (pad_while_len_fst " " n w) as F.
      pose proof (pad_while_len_snd " " n w
                    ltac:(unfold INT_MIN, INT_MAX in *; lia)
                    ltac:(unfold INT_MIN; lia)) as S.
      destruct (pad_while_len " " n w) as [t r]. cbn [fst snd] in F, S. subst t.
      pose proof (pad_while_len_fst " " n r) as F2.
      destruct (pad_while_len " " n r) as [t2 r2]. cbn [fst] in F2. subst t2.
      rewrite (repeat_none " "%char (r - n)) by lia. rewrite app_nil_r. reflexivity.
  - destruct (has flags LEFT); unfold len in *; rewrite length_app; unfold fill;
      rewrite repeat_length; lia.
Qed.

Lemma pad_while_pre_fst c fw :
  INT_MIN < fw <= INT_MAX -> fst (pad_while_pre c fw) = repeat c (Z.to_nat (fw - 1)).
Proof.
  intros H. unfold pad_while_pre.
  rewrite to_int_id by (unfold is_int, INT_MIN, INT_MAX in *; lia).
  destruct (Z.ltb_spec 0 (fw - 1)); simpl; [reflexivity|].
  rewrite repeat_none by lia. reflexivity.
Qed.

Lemma pad_while_pre_snd c fw :
  INT_MIN < fw <= INT_MAX ->
  Z.min 0 (fw - 1) <= snd (pad_while_pre c fw) <= 0.
Proof.
  intros H. unfold pad_while_pre.
  rewrite to_int_id by (unfold is_int, INT_MIN, INT_MAX in *; lia).
  destruct (Z.ltb_spec 0 (fw - 1)); simpl; lia.
Qed.

(** X9. [%c] stores the low byte of its [int] argument once, whatever that
    byte is, with spaces before it up to the field width or, with the left
    flag, after it. *)
Theorem char_directive_pads : forall flags w p q v args written,
  - 2 ^ 30 <= w <= 2 ^ 30 ->
  let fill := repeat " "%char (Z.to_nat (w - 1)) in
  conversion "c" flags w p q (Vword v :: args) written
  = Ok (if has flags LEFT then [char_of (to_int v)] ++ fill
        else fill ++ [char_of (to_int v)], args, [])
  /\ len (if has flags LEFT then [char_of (to_int v)] ++ fill
          else fill ++ [char_of (to_int v)]) = Z.max w 1.
Proof.
  intros flags w p q v args written Hw fill. split.
  - unfold conversion. destruct (has flags LEFT).
    + cbn [va_arg_int va_arg_word bind].
      pose proof (pad_while_pre_fst " " w ltac:(unfold INT_MIN, INT_MAX; lia)) as F.
      destruct (pad_while_pre " " w) as [t r]. cbn [fst] in F. subst t. reflexivity.
    + pose proof (pad_while_pre_fst " " w ltac:(unfold INT_MIN, INT_MAX; lia)) as F.
      pose proof (pad_while_pre_snd " " w ltac:(unfold INT_MIN, INT_MAX; lia)) as S.
      destruct (pad_while_pre " " w) as [t r]. cbn [fst snd] in F, S. subst t.
      cbn [va_arg_int va_arg_word bind].
      pose proof (pad_while_pre_fst " " r ltac:(unfold INT_MIN, INT_MAX; lia)) as F2.
      destruct (pad_while_pre " " r) as [t2 r2]. cbn [fst] in F2. subst t2.
      rewrite (repeat_none " "%char (r - 1)) by lia. reflexivity.
  - destruct (has flags LEFT); unfold len; rewrite length_app; unfold fill;
      rewrite repeat_length; cbn [List.length]; lia.
Qed.

(** X18. [%n] stores nothing in the buffer; through its pointer argument it
    stores the number of characters written before it. *)
Theorem count_directive_stores_length : forall q lit ip args,
  ~ In "%"%char lit -> 0 < ip < 2 ^ 64 ->
  vsprintf q (lit ++ str "%n") (Vword ip :: args)
  = Ok (mkFormatted lit [(ip, len lit)]).
Proof.
  intros q lit ip args Hlit Hip. unfold vsprintf.
  rewrite length_app. rewrite vsprintf_loop_literal by exact Hlit.
  change (List.length (str "%n")) with 2%nat. change (str "%n") with ["%"%char; "n"%char].
  rewrite vsprintf_loop_at_directive.
  assert (Hn : heads_conversion "n").
  { repeat split; try discriminate.
    intros [H | [H | [H | [H | H]]]]; discriminate H. }
  rewrite (directive_at_conversion "n" [] q _ _ Hn).
  cbn [skip_before_d bind]. unfold conversion. cbn [va_arg_ptr va_arg_word bind].
  unfold to_ull. rewrite Z.mod_small by lia.
  destruct (Z.eqb_spec ip 0); [lia|].
  cbn [bind r_fmt r_qualifier r_args r_out r_ips vsprintf_loop app].
  rewrite app_nil_r. reflexivity.
Qed.

(** ** The pixels and colours [putchar] stores *)

Lemma putchar_cols_addresses (n : nat) : forall font_byte testbit addr FRcolor BKcolor,
  map fst (putchar_cols n font_byte testbit addr FRcolor BKcolor)
  = map (fun j => addr + Z.of_nat j) (seq 0 n).
Proof.
  induction n as [|n IH]; intros font_byte testbit addr FRcolor BKcolor; [reflexivity|].
  cbn [putchar_cols map seq fst]. f_equal; [lia|].
  rewrite IH, <- seq_shift, map_map. apply map_ext. intros j. lia.
Qed.

Lemma putchar_cols_colours (n : nat) : forall font_byte testbit addr FRcolor BKcolor,
  Forall (fun s => snd s = FRcolor \/ snd s = BKcolor)
         (putchar_cols n font_byte testbit addr FRcolor BKcolor).
Proof.
  induction n as [|n IH]; intros font_byte testbit addr FRcolor BKcolor; [constructor|].
  cbn [putchar_cols]. constructor; [|apply IH].
  cbn [snd]. destruct (Z.land font_byte (Z.shiftr testbit 1) =? 0); [right | left]; reflexivity.
Qed.

Lemma flat_map_of_map {A B C : Type} (f : B -> list C) (g : A -> B) (l : list A) :
  flat_map f (map g l) = flat_map (fun a => f (g a)) l.
Proof. induction l as [|a l IH]; [reflexivity|]. cbn [map flat_map]. rewrite IH. reflexivity. Qed.

Lemma putchar_rows_addresses (n : nat) : forall i0 p fb Xsize x y FRcolor BKcolor font,
  map fst (putchar_rows n i0 p fb Xsize x y FRcolor BKcolor font)
  = flat_map (fun k => scan_line p fb Xsize x y (i0 + Z.of_nat k)) (seq 0 n).
Proof.
  induction n as [|n IH]; intros i0 p fb Xsize x y FRcolor BKcolor font; [reflexivity|].
  cbn [putchar_rows flat_map seq]. rewrite map_app, putchar_cols_addresses, IH.
  f_equal.
  - unfold scan_line. replace (i0 + Z.of_nat 0) with i0 by lia. reflexivity.
  - rewrite <- seq_shift, flat_map_of_map.
    apply flat_map_ext. intros k. f_equal. lia.
Qed.

Lemma putchar_rows_length (n : nat) : forall i0 p fb Xsize x y FRcolor BKcolor font,
  List.length (putchar_rows n i0 p fb Xsize x y FRcolor BKcolor font)
  = (n * Z.to_nat (char_size_x p))%nat.
Proof.
  induction n as [|n IH]; intros i0 p fb Xsize x y FRcolor BKcolor font; [reflexivity|].
  cbn [putchar_rows]. rewrite length_app, IH.
  rewrite <- (length_map fst (putchar_cols _ _ _ _ _ _)).
  rewrite putchar_cols_addresses, length_map, length_seq. lia.
Qed.

Lemma putchar_rows_colours (n : nat) : forall i0 p fb Xsize x y FRcolor BKcolor font,
  Forall (fun s => snd s = FRcolor \/ snd s = BKcolor)
         (putchar_rows n i0 p fb Xsize x y FRcolor BKcolor font).
Proof.
  induction n as [|n IH]; intros i0 p fb Xsize x y FRcolor BKcolor font; [constructor|].
  cbn [putchar_rows]. apply Forall_app. split; [apply putchar_cols_colours | apply IH].
Qed.

(** X10. [putchar] stores to the [char_size_x] consecutive pixels of each of
    the [char_size_y] scan lines of the glyph, in that order, and to no
    other pixel; every store is of the foreground or the background colour. *)
Theorem putchar_stores_glyph_rectangle : forall p fb Xsize x y FRcolor BKcolor font,
  map fst (putchar p fb Xsize x y FRcolor BKcolor font)
  = flat_map (fun i => scan_line p fb Xsize x y (Z.of_nat i))
             (seq 0 (Z.to_nat (char_size_y p)))
  /\ List.length (putchar p fb Xsize x y FRcolor BKcolor font)
     = (Z.to_nat (char_size_y p) * Z.to_nat (char_size_x p))%nat
  /\ Forall (fun s => snd s = FRcolor \/ snd s = BKcolor)
            (putchar p fb Xsize x y FRcolor BKcolor font).
Proof.
  intros p fb Xsize x y FRcolor BKcolor font. unfold putchar.
  split; [|split].
  - rewrite putchar_rows_addresses. apply flat_map_ext. intros k. f_equal.
  - apply putchar_rows_length.
  - apply putchar_rows_colours.
Qed.

Lemma land_pow2_is_testbit a k :
  0 <= k -> (Z.land a (2 ^ k) =? 0) = negb (Z.testbit a k).
Proof.
  intros Hk. destruct (Z.testbit a k) eqn:T; cbn [negb].
  - apply Z.eqb_neq. intros E.
    assert (B : Z.testbit (Z.land a (2 ^ k)) k = true).
    { rewrite Z.land_spec, T, Z.pow2_bits_true by lia. reflexivity. }
    rewrite E, Z.bits_0 in B. discriminate.
  - apply Z.eqb_eq. apply Z.bits_inj'. intros n Hn.
    rewrite Z.land_spec, Z.bits_0, Z.pow2_bits_eqb by lia.
    destruct (Z.eqb_spec k n) as [-> | NE]; [rewrite T; reflexivity|].
    apply andb_false_r.
Qed.

Lemma shiftr_pow2 m : 1 <= m -> Z.shiftr (2 ^ m) 1 = 2 ^ (m - 1).
Proof.
  intros H. rewrite Z.shiftr_div_pow2 by lia.
  replace m with (m - 1 + 1) at 1 by lia. rewrite Z.pow_add_r by lia.
  apply Z.div_mul. lia.
Qed.

Lemma putchar_cols_bits (n : nat) : forall font_byte m addr FRcolor BKcolor,
  Z.of_nat n <= m ->
  putchar_cols n font_byte (2 ^ m) addr FRcolor BKcolor
  = map (fun j => (addr + Z.of_nat j,
                   if Z.testbit font_byte (m - 1 - Z.of_nat j) then FRcolor else BKcolor))
        (seq 0 n).
Proof.
  induction n as [|n IH]; intros font_byte m addr FRcolor BKcolor H; [reflexivity|].
  cbn [putchar_cols map seq]. rewrite shiftr_pow2 by lia.
  rewrite land_pow2_is_testbit by lia. f_equal.
  - replace (m - 1 - Z.of_nat 0) with (m - 1) by lia.
    replace (addr + Z.of_nat 0) with addr by lia.
    destruct (Z.testbit font_byte (m - 1)); reflexivity.
  - rewrite IH by lia. rewrite <- seq_shift, map_map. apply map_ext. intros j.
    f_equal; [lia|]. replace (m - 1 - 1 - Z.of_nat j) with (m - 1 - Z.of_nat (S j)) by lia.
    reflexivity.
Qed.

Lemma putchar_rows_bits (n : nat) : forall i0 p fb Xsize x y FRcolor BKcolor font,
  0 <= char_size_x p <= 29 ->
  putchar_rows n i0 p fb Xsize x y FRcolor BKcolor font
  = flat_map
      (fun k =>
         map (fun j =>
                (fb + to_int (Xsize * to_int (y + (i0 + Z.of_nat k))) + x + Z.of_nat j,
                 if Z.testbit (font_ascii font (i0 + Z.of_nat k))
                              (char_size_x p - Z.of_nat j)
                 then FRcolor else BKcolor))
             (seq 0 (Z.to_nat (char_size_x p))))
      (seq 0 n).
Proof.
  induction n as [|n IH]; intros i0 p fb Xsize x y FRcolor BKcolor font H; [reflexivity|].
  cbn [putchar_rows flat_map seq]. f_equal.
  - rewrite (to_int_id (char_size_x p + 1)) by (unfold is_int, INT_MIN, INT_MAX; lia).
    rewrite Z.shiftl_1_l.
    assert (2 ^ (char_size_x p + 1) <= 2 ^ 30) by (apply Z.pow_le_mono_r; lia).
    assert (0 < 2 ^ (char_size_x p + 1)) by (apply Z.pow_pos_nonneg; lia).
    rewrite (to_int_id (2 ^ (char_size_x p + 1)))
      by (unfold is_int, INT_MIN, INT_MAX; lia).
    rewrite putchar_cols_bits by lia.
    replace (i0 + Z.of_nat 0) with i0 by lia.
    apply map_ext. intros j.
    replace (char_size_x p + 1 - 1 - Z.of_nat j) with (char_size_x p - Z.of_nat j) by lia.
    reflexivity.
  - rewrite IH by exact H.
    rewrite <- seq_shift, flat_map_of_map.
    apply flat_map_ext. intros k.
    replace (i0 + 1 + Z.of_nat k) with (i0 + Z.of_nat (S k)) by lia. reflexivity.
Qed.

(** X11. In a cell at most 29 pixels wide, column [j] of scan line [i] of a
    glyph is of the foreground colour exactly when bit [char_size_x - j] of
    byte [i] of the font entry is set: the leftmost column shows bit
    [char_size_x], the rightmost bit 1, and bit 0 is never shown. *)
Theorem putchar_shows_font_bits : forall p fb Xsize x y FRcolor BKcolor font,
  0 <= char_size_x p <= 29 ->
  putchar p fb Xsize x y FRcolor BKcolor font
  = flat_map
      (fun i =>
         map (fun j =>
                (fb + to_int (Xsize * to_int (y + Z.of_nat i)) + x + Z.of_nat j,
                 if Z.testbit (font_ascii font (Z.of_nat i)) (char_size_x p - Z.of_nat j)
                 then FRcolor else BKcolor))
             (seq 0 (Z.to_nat (char_size_x p))))
      (seq 0 (Z.to_nat (char_size_y p))).
Proof.
  intros p fb Xsize x y FRcolor BKcolor font H. unfold putchar.
  rewrite putchar_rows_bits by exact H. apply flat_map_ext. intros k. reflexivity.
Qed.

(** ** The cursor under [printk_color] *)

Lemma keeps_grid_trans c0 c1 c2 :
  keeps_grid c0 c1 -> keeps_grid c1 c2 -> keeps_grid c0 c2.
Proof.
  unfold keeps_grid. intros (A1 & A2 & A3) (B1 & B2 & B3).
  split; [congruence|]. split; [congruence | exact B3].
Qed.

Lemma fold_put_current_keeps_grid FRcolor BKcolor (chars : list ascii) : forall c0 c,
  ~ In "010"%char chars ->
  grid_below_int_max c0 -> keeps_grid c0 c ->
  keeps_grid c0 (fold_left (fun c current => put_current FRcolor BKcolor current c) chars c).
Proof.
  induction chars as [|ch chars IH]; intros c0 c N B K; [exact K|].
  cbn [fold_left]. apply IH; [intros I; apply N; right; exact I | exact B|].
  apply (keeps_grid_trans c0 c); [exact K|].
  destruct K as (K1 & K2 & K3).
  apply put_current_keeps_grid;
    [intros ->; apply N; left; reflexivity | | exact K3].
  unfold grid_below_int_max in *. rewrite K1, K2. exact B.
Qed.

Lemma in_firstn_in {A : Type} (n : nat) (l : list A) (a : A) :
  In a (firstn n l) -> In a l.
Proof.
  intros H. rewrite <- (firstn_skipn n l). apply in_or_app. left. exact H.
Qed.

(** X12. When the formatted text holds no newline character,
    [printk_color] started with the cursor on the grid leaves it on the
    grid, and the grid as it was. *)
Theorem printk_color_keeps_cursor_on_grid : forall q FRcolor BKcolor fmt args c f,
  vsprintf q fmt args = Ok f ->
  ~ In "010"%char (buf f) ->
  grid_below_int_max c -> cursor_in_bounds c ->
  exists n c',
    printk_color q FRcolor BKcolor fmt args c = Ok (n, c')
    /\ keeps_grid c c'.
Proof.
  intros q FRcolor BKcolor fmt args c f Hf Hn B H.
  unfold printk_color. rewrite Hf. cbn [bind]. eexists _, _. split; [reflexivity|].
  apply fold_put_current_keeps_grid; [ | exact B | repeat split; apply H].
  intros I. apply Hn. apply (in_firstn_in _ _ _ I).
Qed.


Ltac screen_fields :=
  unfold set_x, set_y in *;
  cbn [pos vram x y max_x max_y width height char_size_x char_size_y
       FB_address FB_length] in *.

Lemma advance_in_row c :
  x (pos c) + 1 <= max_x (pos c) -> max_x (pos c) < INT_MAX ->
  INT_MIN <= x (pos c) -> y (pos c) <= max_y (pos c) ->
  pos (advance c) = set_x (x (pos c) + 1) (pos c).
Proof.
  intros H1 H2 H3 H4. unfold advance, auto_newline.
  destruct c as [p v]. destruct p as [w h mx my cx cy sx sy fb fl]. screen_fields.
  rewrite (to_int_id (cx + 1)) by (unfold is_int, INT_MIN, INT_MAX in *; lia).
  destruct (Z.ltb_spec mx (cx + 1)); [lia|]. screen_fields.
  destruct (Z.ltb_spec my cy); [lia | reflexivity].
Qed.

Lemma tab_loop_in_row (n : nat) : forall c,
  0 <= x (pos c) -> x (pos c) + Z.of_nat n <= max_x (pos c) ->
  max_x (pos c) < INT_MAX -> y (pos c) <= max_y (pos c) ->
  pos (tab_loop n c) = set_x (x (pos c) + Z.of_nat n) (pos c)
  /\ exists drawn,
       vram (tab_loop n c) = vram c ++ drawn
       /\ Forall (fun s => snd s = BLACK) drawn.
Proof.
  induction n as [|n IH]; intros c H0 Hn Hm Hy.
  - cbn [tab_loop]. split.
    + destruct c as [p v]. destruct p as [w h mx my cx cy sx sy fb fl]. screen_fields.
      f_equal. lia.
    + exists []. rewrite app_nil_r. split; [reflexivity | constructor].
  - cbn [tab_loop].
    set (c1 := advance (draw BLACK BLACK (code " ") c)).
    assert (P1 : pos c1 = set_x (x (pos c) + 1) (pos c)).
    { unfold c1. apply (advance_in_row (draw BLACK BLACK (code " ") c)).
      - change (x (pos c) + 1 <= max_x (pos c)). lia.
      - exact Hm.
      - change (INT_MIN <= x (pos c)). unfold INT_MIN. lia.
      - exact Hy. }
    assert (V1 : vram c1 = vram c ++ putchar (pos c) (FB_address (pos c)) (width (pos c))
                             (to_int (x (pos c) * char_size_x (pos c)))
                             (to_int (y (pos c) * char_size_y (pos c)))
                             BLACK BLACK (code " ")) by reflexivity.
    destruct (IH c1) as (P & drawn & V & F).
    + rewrite P1. destruct (pos c) as [w h mx my cx cy sx sy fb fl]; screen_fields; lia.
    + rewrite P1. destruct (pos c) as [w h mx my cx cy sx sy fb fl]; screen_fields; lia.
    + rewrite P1. destruct (pos c) as [w h mx my cx cy sx sy fb fl]; screen_fields; lia.
    + rewrite P1. destruct (pos c) as [w h mx my cx cy sx sy fb fl]; screen_fields; lia.
    + split.
      * rewrite P, P1. destruct (pos c) as [w h mx my cx cy sx sy fb fl]; screen_fields.
        f_equal. lia.
      * eexists. rewrite V, V1, <- app_assoc. split; [reflexivity|].
        apply Forall_app. split; [|exact F].
        eapply Forall_impl; [|apply putchar_rows_colours].
        cbn beta. intros s [E | E]; exact E.
Qed.

(** X14. A tab moves the cursor to the next column that is a multiple of 8,
    when the row reaches that far, drawing every cell it passes in [BLACK]. *)
Theorem tab_moves_to_next_stop : forall q FRcolor BKcolor c,
  cursor_in_bounds c -> grid_below_int_max c ->
  let stop := x (pos c) + 8 - x (pos c) mod 8 in
  stop <= max_x (pos c) ->
  exists c' drawn,
    printk_color q FRcolor BKcolor ["009"%char] [] c = Ok (1, c')
    /\ cursor c' = (stop, y (pos c))
    /\ stop mod 8 = 0 /\ x (pos c) < stop
    /\ vram c' = vram c ++ drawn
    /\ Forall (fun s => snd s = BLACK) drawn.
Proof.
  intros q FRcolor BKcolor c [Hx Hy] [Bx By] stop Hs. subst stop.
  assert (E : printk_color q FRcolor BKcolor ["009"%char] [] c
              = Ok (1, tab_loop (Z.to_nat (to_int (8 - Z.rem (x (pos c)) 8))) c))
    by reflexivity.
  pose proof (Z.mod_pos_bound (x (pos c)) 8 ltac:(lia)) as M.
  rewrite Z.rem_mod_nonneg in E by lia.
  rewrite (to_int_id (8 - x (pos c) mod 8)) in E
    by (unfold is_int, INT_MIN, INT_MAX; lia).
  assert (R : x (pos c) + Z.of_nat (Z.to_nat (8 - x (pos c) mod 8)) <= max_x (pos c))
    by (rewrite Z2Nat.id by lia; lia).
  destruct (tab_loop_in_row (Z.to_nat (8 - x (pos c) mod 8)) c ltac:(lia) R Bx ltac:(lia))
    as (P & drawn & V & F).
  rewrite Z2Nat.id in P by lia.
  eexists _, drawn. split; [exact E|].
  split.
  { unfold cursor. rewrite P.
    destruct (pos c) as [w h mx my cx cy sx sy fb fl]; screen_fields. f_equal. lia. }
  split.
  { pose proof (Z.div_mod (x (pos c)) 8 ltac:(lia)) as D.
    replace (x (pos c) + 8 - x (pos c) mod 8) with ((x (pos c) / 8 + 1) * 8) by lia.
    apply Z.mod_mul. lia. }
  split; [lia|]. split; [exact V | exact F].
Qed.


End Printk.

(** ** The theorems at concrete inputs *)

(** With the status [1] for [EPOS_OVERFLOW], on the 2 by 2 grid of the 16 by
    32 screen: [(2, 1)] is accepted. *)
Lemma set_printk_pos_succeeds_iff_on_grid_witness :
  1 <> 0
  /\ ((on_grid 2 1 console_16x32 <->
         fst (set_printk_pos 1 2 1 console_16x32) = 0
         /\ cursor (snd (set_printk_pos 1 2 1 console_16x32)) = (2, 1))
      /\ (on_grid 2 1 console_16x32 ->
            set_printk_pos 1 2 1 console_16x32 = (0, move_to 2 1 console_16x32))
      /\ (~ on_grid 2 1 console_16x32 ->
            set_printk_pos 1 2 1 console_16x32 = (1, console_16x32))).
Proof.
  split; [discriminate|].
  apply (set_printk_pos_succeeds_iff_on_grid 1). discriminate.
Defined.

(** "abc%-0": the literal text "abc", then a directive cut after two flags. *)
Lemma truncated_directive_emits_nothing_witness :
  ~ In "%"%char (str "abc")
  /\ Forall is_flag_char (str "-0")
  /\ vsprintf (fun _ _ _ _ => []) 0 (str "abc" ++ "%"%char :: str "-0") []
     = Ok (mkFormatted (str "abc") [])
  /\ (forall fuel q' args' out ips,
        vsprintf_loop (fun _ _ _ _ => []) (S fuel) ("%"%char :: str "-0") q' args' out ips
        = Ok (mkFormatted out ips)).
Proof.
  assert (H1 : ~ In "%"%char (str "abc")).
  { simpl. intros [H | [H | [H | []]]]; discriminate H. }
  assert (H2 : Forall is_flag_char (str "-0")).
  { apply Forall_cons; [left; reflexivity|].
    apply Forall_cons; [do 4 right; reflexivity|]. apply Forall_nil. }
  split; [exact H1|]. split; [exact H2|].
  apply (truncated_directive_emits_nothing (fun _ _ _ _ => []) 0 (str "abc") (str "-0") [] H1 H2).
Defined.

(** C7, as the specification states it, fails: formatting "abc%" yields
    "abc", not "abc%". *)
Lemma truncated_percent_is_not_emitted :
  vsprintf (fun _ _ _ _ => []) 0 (str "abc%") [] = Ok (mkFormatted (str "abc") [])
  /\ vsprintf (fun _ _ _ _ => []) 0 (str "abc%") [] <> Ok (mkFormatted (str "abc%") []).
Proof. split; [reflexivity | discriminate]. Qed.

(** On the 16 by 32 screen [max_x = 2], and the glyph of "A" at column 2
    reaches pixel column [2 * 8 + 7 = 23 >= 16]; on row [max_y = 2] a store
    lies at or past pixel [16 * 32]. *)
Lemma glyph_at_max_x_overruns_row_witness :
  (0 < 8 /\ is_int 16 /\ printable "A"
   /\ init_printk 16 32 0 512 8 16 console_at_boot = Ok (0, console_16x32))
  /\ (0 < 16 /\ 0 <= 16 /\ 0 <= 32 /\ is_int (32 + 16) /\ is_int (16 * (32 + 16)))
  /\ 16 <= 2 * 8 + 8 - 1
  /\ (forall row i, 0 <= i < 16 ->
        exists c',
          printk_color (fun _ _ _ _ => []) (fun _ _ => 0) 0 0 1 0 ["A"%char] []
            (move_to 2 row console_16x32) = Ok (1, c')
          /\ In (0 + to_int (16 * to_int (to_int (row * 16) + i)) + (2 * 8 + 8 - 1))
                (map fst (vram c')))
  /\ (exists c' a,
        printk_color (fun _ _ _ _ => []) (fun _ _ => 0) 0 0 1 0 ["A"%char] []
          (move_to 2 2 console_16x32) = Ok (1, c')
        /\ In a (map fst (vram c'))
        /\ 0 + 16 * 32 <= a)
  /\ set_printk_pos 1 2 2 console_16x32 = (0, move_to 2 2 console_16x32).
Proof.
  assert (H1 : 0 < 8) by lia.
  assert (H2 : is_int 16) by (unfold is_int, INT_MIN, INT_MAX; lia).
  assert (H3 : printable "A") by (repeat split; discriminate).
  assert (H4 : init_printk 16 32 0 512 8 16 console_at_boot = Ok (0, console_16x32))
    by reflexivity.
  assert (H5 : 0 < 16) by lia.
  assert (H6 : 0 <= 16) by lia.
  assert (H7 : 0 <= 32) by lia.
  assert (H8 : is_int (32 + 16)) by (unfold is_int, INT_MIN, INT_MAX; lia).
  assert (H9 : is_int (16 * (32 + 16))) by (unfold is_int, INT_MIN, INT_MAX; lia).
  destruct (glyph_at_max_x_overruns_row (fun _ _ _ _ => []) (fun _ _ => 0) 1 0
              16 32 0 512 8 16 console_at_boot 0 console_16x32 0 1 0 "A"%char
              H1 H2 H3 H4) as (R1 & R2 & R3 & R4).
  split; [exact (conj H1 (conj H2 (conj H3 H4)))|].
  split; [exact (conj H5 (conj H6 (conj H7 (conj H8 H9))))|].
  split; [exact R1|]. split; [exact R2|].
  split; [exact (R3 H5 H6 H7 H8 H9)|].
  apply (R4 H6 2). simpl. lia.
Defined.

(** * Further properties of the code: the number formatter and the screen state *)

(** ** [skip_and_atoi] *)

Lemma skip_and_atoi_from_split (s : list ascii) : forall ans,
  exists ds,
    s = ds ++ snd (skip_and_atoi_from ans s)
    /\ Forall (fun c => is_digit c = true) ds
    /\ no_leading_digit (snd (skip_and_atoi_from ans s))
    /\ (ds = [] -> fst (skip_and_atoi_from ans s) = ans).
Proof.
  induction s as [|c s IH]; intros ans; simpl.
  - exists []. repeat split; auto.
  - destruct (is_digit c) eqn:D.
    + destruct (IH (to_int (ans * 10 + code c - code "0"))) as (ds & E & F & N & _).
      exists (c :: ds). split; [simpl; f_equal; exact E|].
      split; [constructor; assumption|]. split; [exact N|]. discriminate.
    + exists []. simpl. rewrite D. repeat split; auto.
Qed.

Lemma skip_and_atoi_from_is_int (s : list ascii) : forall ans,
  is_int ans -> is_int (fst (skip_and_atoi_from ans s)).
Proof.
  induction s as [|c s IH]; intros ans H; simpl; [exact H|].
  destruct (is_digit c); [|exact H]. apply IH. apply to_int_range.
Qed.

(** X2. [skip_and_atoi] reads the longest run of decimal digits at the start
    of its input and stops at the first other character, which it leaves in
    place; its value is an [int]; with no digit to read it returns 0 and the
    input as it was. *)
Theorem skip_and_atoi_splits_digits : forall s,
  exists ds,
    s = ds ++ snd (skip_and_atoi s)
    /\ Forall (fun c => is_digit c = true) ds
    /\ no_leading_digit (snd (skip_and_atoi s))
    /\ is_int (fst (skip_and_atoi s))
    /\ (ds = [] -> skip_and_atoi s = (0, s)).
Proof.
  intros s. unfold skip_and_atoi.
  destruct (skip_and_atoi_from_split s 0) as (ds & E & F & N & Z0).
  exists ds. split; [exact E|]. split; [exact F|]. split; [exact N|].
  split; [apply skip_and_atoi_from_is_int; unfold is_int, INT_MIN, INT_MAX; lia|].
  intros ->. specialize (Z0 eq_refl). simpl in E.
  destruct (skip_and_atoi_from 0 s) as [v r]. simpl in *. subst. reflexivity.
Qed.

Lemma digit_code (k : Z) : 0 <= k <= 9 ->
  code (digit_at digits_upper k) = 48 + k /\ is_digit (digit_at digits_upper k) = true.
Proof.
  intros H.
  assert (D : k = 0 \/ k = 1 \/ k = 2 \/ k = 3 \/ k = 4 \/ k = 5 \/ k = 6 \/ k = 7
              \/ k = 8 \/ k = 9) by lia.
  repeat (destruct D as [-> | D]; [split; reflexivity|]). subst. split; reflexivity.
Qed.

Lemma skip_and_atoi_from_app (ds : list ascii) : forall ans rest,
  Forall (fun c => is_digit c = true) ds ->
  skip_and_atoi_from ans (ds ++ rest)
  = skip_and_atoi_from (fst (skip_and_atoi_from ans ds)) rest.
Proof.
  induction ds as [|c ds IH]; intros ans rest F; [reflexivity|].
  inversion F as [|? ? Hc Hds]; subst. simpl. rewrite Hc. apply IH. exact Hds.
Qed.

Lemma atoi_of_converted (fuel : nat) : forall m rest,
  0 <= m <= INT_MAX -> m < 2 ^ Z.of_nat fuel ->
  skip_and_atoi_from 0 (rev (convert_loop fuel digits_upper m 10) ++ rest)
  = skip_and_atoi_from m rest.
Proof.
  induction fuel as [|fuel IH]; intros m rest Hm Hf.
  - assert (m = 0) by (simpl in Hf; lia). subst. reflexivity.
  - simpl convert_loop. destruct (Z.ltb_spec 0 m) as [P | N].
    2:{ assert (m = 0) by lia. subst. reflexivity. }
    simpl rev. rewrite <- app_assoc. simpl app.
    pose proof (Z.quot_rem' m 10) as E.
    pose proof (Z.rem_bound_pos m 10 ltac:(lia) ltac:(lia)) as R.
    pose proof (Z.quot_pos m 10 ltac:(lia) ltac:(lia)) as Q.
    rewrite Nat2Z.inj_succ, Z.pow_succ_r in Hf by lia.
    rewrite IH by (unfold INT_MAX in *; lia).
    destruct (digit_code (Z.rem m 10) ltac:(lia)) as [C D].
    simpl skip_and_atoi_from. rewrite D, C.
    replace (Z.quot m 10 * 10 + (48 + Z.rem m 10) - code "0") with m
      by (change (code "0") with 48; lia).
    rewrite to_int_id by (unfold is_int, INT_MIN, INT_MAX in *; lia). reflexivity.
Qed.

Lemma skip_and_atoi_from_stop ans rest :
  no_leading_digit rest -> skip_and_atoi_from ans rest = (ans, rest).
Proof. destruct rest as [|c r]; simpl; [reflexivity|]. intros ->. reflexivity. Qed.

(** ** The layout of what [write_num] stores *)

Lemma convert_loop_length (fuel : nat) : forall digits m b,
  (List.length (convert_loop fuel digits m b) <= fuel)%nat.
Proof.
  induction fuel as [|fuel IH]; intros digits m b; simpl; [lia|].
  destruct (0 <? m); simpl; [|lia]. specialize (IH digits (Z.quot m b) b). lia.
Qed.

Lemma num_digits_len flags num base : 0 <= len (num_digits flags num base) <= 64.
Proof.
  unfold num_digits, len. destruct (num_magnitude flags num =? 0); [cbn [List.length]; lia|].
  rewrite length_rev.
  pose proof (convert_loop_length 64 (num_digit_table flags)
                (ABS (num_magnitude flags num)) base). lia.
Qed.

Lemma has_cleared f F :
  has (Z.land f (Z.lnot PAD_ZERO)) F = has f (Z.land (Z.lnot PAD_ZERO) F).
Proof. unfold has. rewrite <- Z.land_assoc. reflexivity. Qed.

Lemma has_left_or_zero f : has f (LEFT + PAD_ZERO) = has f LEFT || has f PAD_ZERO.
Proof.
  change (LEFT + PAD_ZERO) with (Z.lor LEFT PAD_ZERO). unfold has.
  rewrite Z.land_lor_distr_r.
  destruct (Z.eqb_spec (Z.land f LEFT) 0) as [A | A];
    destruct (Z.eqb_spec (Z.land f PAD_ZERO) 0) as [B | B];
    destruct (Z.eqb_spec (Z.lor (Z.land f LEFT) (Z.land f PAD_ZERO)) 0) as [C | C];
    try reflexivity; exfalso.
  - apply C. rewrite A, B. reflexivity.
  - apply Z.lor_eq_0_iff in C. tauto.
  - apply Z.lor_eq_0_iff in C. tauto.
  - apply Z.lor_eq_0_iff in C. tauto.
Qed.

Lemma pad_while_fst c fw : fst (pad_while c fw) = repeat c (Z.to_nat fw).
Proof.
  unfold pad_while. destruct (Z.ltb_spec 0 fw); simpl; [reflexivity|].
  replace (Z.to_nat fw) with 0%nat by lia. reflexivity.
Qed.

Lemma pad_while_snd c fw lo :
  INT_MIN <= lo -> lo <= -1 -> lo < fw ->
  lo - 1 < snd (pad_while c fw) <= -1.
Proof.
  intros H1 H2 H3. unfold pad_while. destruct (Z.ltb_spec 0 fw); simpl; [lia|].
  rewrite to_int_id by (unfold is_int, INT_MIN, INT_MAX in *; lia). lia.
Qed.

Lemma pad_while_none c fw : fw <= 0 -> fst (pad_while c fw) = [].
Proof.
  intros H. rewrite pad_while_fst. replace (Z.to_nat fw) with 0%nat by lia. reflexivity.
Qed.

(** With a field width and a precision that leave the [int] arithmetic of
    [write_num] free of overflow, what it stores is: leading spaces, the
    sign, the prefix, the zero fill, the zeros of the precision, the digits,
    trailing spaces. *)
Lemma write_num_shape num base w p flags :
  2 <= base <= 36 -> - 2 ^ 29 <= w <= 2 ^ 29 -> p <= 2 ^ 29 ->
  let s := num_sign flags num in
  let pre := num_prefix flags base in
  let ds := num_digits flags num base in
  let P := Z.max p (len ds) in
  let W := Z.to_nat (w - len s - len pre - P) in
  let left := has flags LEFT in
  let zero := has flags PAD_ZERO && negb left in
  write_num num base w p flags
  = Some ((if left || zero then [] else repeat " "%char W)
          ++ s ++ pre
          ++ (if zero then repeat "0"%char W else [])
          ++ repeat "0"%char (Z.to_nat (P - len ds))
          ++ ds
          ++ (if left then repeat " "%char W else [])).
Proof.
  intros Hb Hw Hp s pre ds P W left zero.
  unfold write_num.
  replace ((base <? 2) || (36 <? base)) with false
    by (symmetry; apply orb_false_iff; split; apply Z.ltb_ge; lia).
  set (f' := if has flags LEFT then Z.land flags (Z.lnot PAD_ZERO) else flags).
  assert (HL : has f' LEFT = left).
  { unfold f', left. destruct (has flags LEFT) eqn:E; [|exact E].
    rewrite has_cleared. exact E. }
  assert (HZ : has f' PAD_ZERO = zero).
  { unfold f', zero, left. destruct (has flags LEFT) eqn:E.
    - rewrite has_cleared. change (Z.land (Z.lnot PAD_ZERO) PAD_ZERO) with 0.
      unfold has. rewrite Z.land_0_r, andb_false_r. reflexivity.
    - rewrite andb_true_r. reflexivity. }
  assert (HO : forall F, Z.land (Z.lnot PAD_ZERO) F = F -> has f' F = has flags F).
  { intros F HF. unfold f'. destruct (has flags LEFT); [|reflexivity].
    rewrite has_cleared, HF. reflexivity. }
  rewrite (has_left_or_zero f'), HL, HZ.
  rewrite (HO SIGN eq_refl), (HO PLUS eq_refl), (HO SPACE eq_refl), (HO SPECIAL eq_refl).
  fold (num_digit_table flags).
  pose proof (num_digits_len flags num base) as Hds. fold ds in Hds.
  assert (Es : (if has flags SIGN && (num <? 0)
                then (Some "-"%char, to_ll (- num))
                else (if has flags PLUS then Some "+"%char
                      else if has flags SPACE then Some " "%char else None, num))
               = (match s with c :: _ => Some c | [] => None end,
                  num_magnitude flags num)).
  { unfold s, num_sign, num_magnitude.
    destruct (has flags SIGN && (num <? 0)); [reflexivity|].
    destruct (has flags PLUS); [reflexivity|]. destruct (has flags SPACE); reflexivity. }
  rewrite Es. clear Es.
  assert (Ls : s = [] \/ exists c, s = [c]).
  { unfold s, num_sign. destruct (has flags SIGN && (num <? 0)); [right; eauto|].
    destruct (has flags PLUS); [right; eauto|].
    destruct (has flags SPACE); [right; eauto | left; reflexivity]. }
  assert (Ed : (if num_magnitude flags num =? 0 then ["0"%char]
                else convert_loop 64 (num_digit_table flags)
                       (ABS (num_magnitude flags num)) base) = rev ds).
  { unfold ds, num_digits. destruct (num_magnitude flags num =? 0); [reflexivity|].
    rewrite rev_involutive. reflexivity. }
  rewrite Ed. clear Ed. rewrite length_rev, rev_involutive.
  fold (len ds).
  assert (EP : (if p <? len ds then len ds else p) = P).
  { unfold P. destruct (Z.ltb_spec p (len ds)); lia. }
  rewrite EP. clear EP.
  assert (HP : 0 <= P <= 2 ^ 29) by (unfold P; lia).
  (* the width left after the sign, the prefix and the digits *)
  set (fw1 := match match s with c :: _ => Some c | [] => None end with
              | Some _ => to_int (w - 1) | None => w end).
  assert (E1 : fw1 = w - len s).
  { unfold fw1. destruct Ls as [-> | [c ->]]; unfold len; simpl; [lia|].
    rewrite to_int_id by (unfold is_int, INT_MIN, INT_MAX; lia). lia. }
  set (fw2 := if has flags SPECIAL
              then if base =? 16 then to_int (fw1 - 2)
                   else if base =? 8 then to_int (fw1 - 1) else fw1
              else fw1).
  set (pre' := if has flags SPECIAL
               then if base =? 16 then ["0"%char; digit_at (num_digit_table flags) 33]
                    else if base =? 8 then [digit_at (num_digit_table flags) 24] else []
               else []).
  assert (Epre : pre' = pre) by reflexivity.
  assert (Ls' : 0 <= len s <= 1) by (destruct Ls as [-> | [c ->]]; unfold len; simpl; lia).
  assert (Lpre : 0 <= len pre <= 2 /\ fw2 = fw1 - len pre).
  { unfold fw2, pre, num_prefix. rewrite E1.
    destruct (has flags SPECIAL); [|unfold len; cbn [List.length]; lia].
    destruct (base =? 16).
    { rewrite to_int_id by (unfold is_int, INT_MIN, INT_MAX; lia).
      unfold len; cbn [List.length]; lia. }
    destruct (base =? 8); [|unfold len; cbn [List.length]; lia].
    rewrite to_int_id by (unfold is_int, INT_MIN, INT_MAX; lia).
    unfold len; cbn [List.length]; lia. }
  destruct Lpre as [Lpre E2]. rewrite Epre.
  assert (E3 : to_int (fw2 - P) = w - len s - len pre - P).
  { rewrite to_int_id by (unfold is_int, INT_MIN, INT_MAX; lia). lia. }
  rewrite E3. set (Wz := w - len s - len pre - P). fold Wz in W.
  assert (HW : - 2 ^ 31 + 8 <= Wz) by (unfold Wz; lia).
  assert (Esign : match match s with c :: _ => Some c | [] => None end with
                  | Some c => [c] | None => [] end = s)
    by (destruct Ls as [-> | [c ->]]; reflexivity).
  rewrite Esign. clear Esign Epre E1 E2 E3.
  assert (LZ : left = true -> zero = false) by (unfold zero; intros ->; apply andb_false_r).
  clearbody Wz fw1 fw2 pre' ds s pre P left zero. clear HL HZ HO.
  destruct left; destruct zero; cbn [orb]; cbv iota.
  - discriminate (LZ eq_refl).
  - destruct (pad_while " " Wz) as [t r] eqn:T.
    pose proof (pad_while_fst " " Wz) as F. rewrite T in F. cbn [fst] in F. subst t.
    reflexivity.
  - pose proof (pad_while_snd "0" Wz (- 2 ^ 31 + 4) ltac:(unfold INT_MIN; lia)
                  ltac:(lia) ltac:(lia)) as S1.
    pose proof (pad_while_fst "0" Wz) as F1.
    destruct (pad_while "0" Wz) as [t1 r1]. cbn [fst snd] in *. subst t1.
    pose proof (pad_while_none " " r1 ltac:(lia)) as F2.
    destruct (pad_while " " r1) as [t2 r2]. cbn [fst snd] in *. subst t2.
    rewrite !app_nil_r. reflexivity.
  - pose proof (pad_while_snd " " Wz (- 2 ^ 31 + 4) ltac:(unfold INT_MIN; lia)
                  ltac:(lia) ltac:(lia)) as S1.
    pose proof (pad_while_fst " " Wz) as F1.
    destruct (pad_while " " Wz) as [t1 r1]. cbn [fst snd] in *. subst t1.
    pose proof (pad_while_snd " " r1 (- 2 ^ 31 + 2) ltac:(unfold INT_MIN; lia)
                  ltac:(lia) ltac:(lia)) as S2.
    pose proof (pad_while_none " " r1 ltac:(lia)) as F2.
    destruct (pad_while " " r1) as [t2 r2]. cbn [fst snd] in *. subst t2.
    pose proof (pad_while_none " " r2 ltac:(lia)) as F3.
    destruct (pad_while " " r2) as [t3 r3]. cbn [fst snd] in *. subst t3.
    rewrite !app_nil_r. reflexivity.
Qed.

Lemma to_ll_id z : - 2 ^ 63 <= z < 2 ^ 63 -> to_ll z = z.
Proof. intros H. unfold to_ll, wrap_signed. rewrite Z.mod_small; lia. Qed.

(** X1. Round trip: the decimal digits [write_num] stores for a
    non-negative [int] [n], read back by [skip_and_atoi], give [n] again and
    leave what follows the digits. *)
Theorem decimal_round_trip : forall n rest,
  0 <= n <= INT_MAX -> no_leading_digit rest ->
  exists ds,
    write_num n 10 (-1) (-1) 0 = Some ds
    /\ Forall (fun c => is_digit c = true) ds
    /\ skip_and_atoi (ds ++ rest) = (n, rest).
Proof.
  intros n rest Hn Hrest.
  pose proof (write_num_shape n 10 (-1) (-1) 0 ltac:(lia) ltac:(lia) ltac:(lia)) as S.
  cbv zeta in S.
  change (num_sign 0 n) with (@nil ascii) in S.
  change (num_prefix 0 10) with (@nil ascii) in S.
  change (has 0 LEFT) with false in S. change (has 0 PAD_ZERO) with false in S.
  cbn [andb orb negb app] in S.
  pose proof (num_digits_len 0 n 10) as L.
  assert (D : num_digits 0 n 10
              = if n =? 0 then ["0"%char] else rev (convert_loop 64 digits_upper n 10)).
  { unfold num_digits. change (num_magnitude 0 n) with n.
    change (num_digit_table 0) with digits_upper.
    destruct (Z.eqb_spec n 0); [reflexivity|].
    unfold ABS. destruct (Z.ltb_spec 0 n); [reflexivity | lia]. }
  set (ds := num_digits 0 n 10) in *.
  change (len (@nil ascii)) with 0 in S.
  replace (Z.to_nat (-1 - 0 - 0 - Z.max (-1) (len ds))) with 0%nat in S by lia.
  replace (Z.to_nat (Z.max (-1) (len ds) - len ds)) with 0%nat in S by lia.
  cbn [repeat app] in S. rewrite app_nil_r in S.
  exists ds. split; [exact S|].
  unfold skip_and_atoi. rewrite D. destruct (Z.eqb_spec n 0) as [-> | NZ].
  - split; [repeat constructor|]. cbn. apply skip_and_atoi_from_stop. exact Hrest.
  - assert (A : skip_and_atoi_from 0 (rev (convert_loop 64 digits_upper n 10) ++ rest)
                = (n, rest)).
    { rewrite atoi_of_converted; [apply skip_and_atoi_from_stop; exact Hrest | exact Hn|].
      unfold INT_MAX in Hn. change (2 ^ Z.of_nat 64) with (2 ^ 64). lia. }
    split; [|exact A].
    destruct (skip_and_atoi_from_split (rev (convert_loop 64 digits_upper n 10) ++ rest) 0)
      as (ds' & E & F & N & _).
    rewrite A in E. cbn [snd] in E. apply app_inv_tail in E. rewrite E. exact F.
Qed.

(** X3. The field width of [write_num] is a minimum: the output is what
    is stored without a width, extended to the width when it is shorter and
    never cut.  The fill is spaces after the text with the left flag, spaces
    before it without the left and zero flags, and zeros between the sign
    or prefix and the digits with the zero flag alone. *)
Theorem write_num_field_width : forall num base w p flags,
  2 <= base <= 36 -> - 2 ^ 29 <= w <= 2 ^ 29 -> p <= 2 ^ 29 ->
  exists natural out,
    write_num num base (-1) p flags = Some natural
    /\ write_num num base w p flags = Some out
    /\ len out = Z.max w (len natural)
    /\ (has flags LEFT = true ->
          out = natural ++ repeat " "%char (Z.to_nat (w - len natural)))
    /\ (has flags LEFT = false -> has flags PAD_ZERO = false ->
          out = repeat " "%char (Z.to_nat (w - len natural)) ++ natural)
    /\ (has flags LEFT = false -> has flags PAD_ZERO = true ->
          out = num_sign flags num ++ num_prefix flags base
                ++ repeat "0"%char (Z.to_nat (w - len natural))
                ++ skipn (List.length (num_sign flags num ++ num_prefix flags base)) natural).
Proof.
  intros num base w p flags Hb Hw Hp.
  pose proof (write_num_shape num base w p flags Hb Hw Hp) as S.
  pose proof (write_num_shape num base (-1) p flags Hb ltac:(lia) Hp) as S1.
  cbv zeta in S, S1.
  pose proof (num_digits_len flags num base) as Hds.
  set (s := num_sign flags num) in *. set (pre := num_prefix flags base) in *.
  set (ds := num_digits flags num base) in *.
  set (P := Z.max p (len ds)) in *.
  assert (Hs : 0 <= len s) by (unfold len; lia).
  assert (Hpre : 0 <= len pre) by (unfold len; lia).
  replace (Z.to_nat (-1 - len s - len pre - P)) with 0%nat in S1 by lia.
  cbn [repeat] in S1.
  assert (N : write_num num base (-1) p flags
              = Some (s ++ pre ++ repeat "0"%char (Z.to_nat (P - len ds)) ++ ds)).
  { rewrite S1. destruct (has flags LEFT); destruct (has flags PAD_ZERO);
      cbn [andb orb negb app]; rewrite ?app_nil_r; reflexivity. }
  clear S1.
  set (natural := s ++ pre ++ repeat "0"%char (Z.to_nat (P - len ds)) ++ ds) in *.
  assert (LN : len natural = len s + len pre + P).
  { unfold natural, len. rewrite !length_app, repeat_length. unfold len in *. lia. }
  exists natural. eexists. split; [exact N|]. split; [exact S|].
  rewrite LN. set (W := Z.to_nat (w - len s - len pre - P)).
  replace (Z.to_nat (w - (len s + len pre + P))) with W by (unfold W; f_equal; lia).
  assert (LW : Z.of_nat W = Z.max 0 (w - (len s + len pre + P))) by (unfold W; lia).
  destruct (has flags LEFT); destruct (has flags PAD_ZERO); cbn [andb orb negb app];
    rewrite ?app_nil_r.
  - split; [|split; [|split]]; try (intros; discriminate).
    + unfold natural, len in *. rewrite !length_app, !repeat_length in *. lia.
    + intros _. unfold natural. rewrite <- !app_assoc. reflexivity.
  - split; [|split; [|split]]; try (intros; discriminate).
    + unfold natural, len in *. rewrite !length_app, !repeat_length in *. lia.
    + intros _. unfold natural. rewrite <- !app_assoc. reflexivity.
  - split; [|split; [|split]]; try (intros; discriminate).
    + unfold natural, len in *. rewrite !length_app, !repeat_length in *. lia.
    + intros _ _. unfold natural.
      rewrite (app_assoc s pre (repeat "0"%char (Z.to_nat (P - len ds)) ++ ds)).
      rewrite skipn_app, skipn_all, Nat.sub_diag. cbn [skipn app]. reflexivity.
  - split; [|split; [|split]]; try (intros; discriminate).
    + unfold natural, len in *. rewrite !length_app, !repeat_length in *. lia.
    + intros _ _. reflexivity.
Qed.

Lemma num_digits_of_magnitude flags num base :
  num_digits flags num base
  = if num_magnitude flags num =? 0 then ["0"%char]
    else rev (convert_loop 64 (num_digit_table flags) (ABS (num_magnitude flags num)) base).
Proof. reflexivity. Qed.



(** ** The digits [write_num] stores denote the magnitude *)

Lemma digit_index_at flags (k : Z) :
  0 <= k < 36 ->
  digit_index (num_digit_table flags) (digit_at (num_digit_table flags) k) = k.
Proof.
  intros H.
  assert (A : forall T, T = digits_upper \/ T = digits_lower ->
            forallb (fun n => digit_index T (digit_at T (Z.of_nat n)) =? Z.of_nat n)
                    (seq 0 36) = true).
  { intros T [-> | ->]; vm_compute; reflexivity. }
  assert (T : num_digit_table flags = digits_upper \/ num_digit_table flags = digits_lower).
  { unfold num_digit_table. destruct (has flags SMALL); [right | left]; reflexivity. }
  specialize (A _ T). rewrite forallb_forall in A.
  specialize (A (Z.to_nat k)). rewrite Z2Nat.id in A by lia.
  apply Z.eqb_eq. apply A. apply in_seq. lia.
Qed.

Lemma digits_value_snoc digits base ds c :
  digits_value digits base (ds ++ [c])
  = digits_value digits base ds * base + digit_index digits c.
Proof. unfold digits_value. rewrite fold_left_app. reflexivity. Qed.

Lemma digits_value_of_converted flags base (fuel : nat) : forall m,
  2 <= base <= 36 -> 0 <= m < 2 ^ Z.of_nat fuel ->
  digits_value (num_digit_table flags) base
    (rev (convert_loop fuel (num_digit_table flags) m base)) = m.
Proof.
  induction fuel as [|fuel IH]; intros m Hb Hm.
  - assert (m = 0) by (simpl in Hm; lia). subst. reflexivity.
  - cbn [convert_loop]. destruct (Z.ltb_spec 0 m) as [P | N].
    2:{ assert (m = 0) by lia. subst. reflexivity. }
    cbn [rev]. rewrite digits_value_snoc.
    pose proof (Z.quot_rem' m base) as E.
    pose proof (Z.rem_bound_pos m base ltac:(lia) ltac:(lia)) as R.
    pose proof (Z.quot_pos m base ltac:(lia) ltac:(lia)) as Q.
    rewrite Nat2Z.inj_succ, Z.pow_succ_r in Hm by lia.
    rewrite IH by (try exact Hb; nia).
    rewrite digit_index_at by lia. lia.
Qed.

(** X21. In every base from 2 to 36 the digits [write_num] stores for a
    number above the most negative [long long] are the digits of its
    absolute value, whether or not the signed flag is set: without the flag
    a negative number is stored as its magnitude with no sign. *)
Theorem write_num_digits_denote_magnitude : forall num base flags,
  2 <= base <= 36 -> - 2 ^ 63 < num < 2 ^ 63 ->
  write_num num base (-1) (-1) flags
  = Some (num_sign flags num ++ num_prefix flags base ++ num_digits flags num base)
  /\ digits_value (num_digit_table flags) base (num_digits flags num base) = Z.abs num
  /\ (has flags SIGN = false -> has flags PLUS = false -> has flags SPACE = false ->
      num_sign flags num = []).
Proof.
  intros num base flags Hb Hn. split; [|split].
  - pose proof (write_num_shape num base (-1) (-1) flags Hb ltac:(lia) ltac:(lia)) as A.
    cbv zeta in A.
    pose proof (num_digits_len flags num base) as L.
    set (ds := num_digits flags num base) in *. set (pre := num_prefix flags base) in *.
    set (s := num_sign flags num) in *.
    assert (Hs : 0 <= len s) by (unfold len; lia).
    assert (Hpre : 0 <= len pre) by (unfold len; lia).
    replace (Z.to_nat (-1 - len s - len pre - Z.max (-1) (len ds))) with 0%nat in A by lia.
    replace (Z.to_nat (Z.max (-1) (len ds) - len ds)) with 0%nat in A by lia.
    cbn [repeat] in A. rewrite A.
    destruct (has flags LEFT); destruct (has flags PAD_ZERO);
      cbn [andb orb negb app]; rewrite ?app_nil_r; reflexivity.
  - rewrite num_digits_of_magnitude.
    assert (M : ABS (num_magnitude flags num) = Z.abs num
                /\ (num_magnitude flags num = 0 <-> num = 0)).
    { unfold num_magnitude, ABS.
      destruct (has flags SIGN && (num <? 0)) eqn:S.
      - apply andb_true_iff in S. destruct S as [_ S]. apply Z.ltb_lt in S.
        rewrite to_ll_id by lia. destruct (Z.ltb_spec 0 (- num)); lia.
      - destruct (Z.ltb_spec 0 num); [lia|]. rewrite to_ll_id by lia. lia. }
    destruct M as [M M0].
    destruct (Z.eqb_spec (num_magnitude flags num) 0) as [Z0 | NZ].
    + apply M0 in Z0. subst num.
      unfold num_digit_table. destruct (has flags SMALL); reflexivity.
    + rewrite M. apply digits_value_of_converted; [exact Hb|].
      change (2 ^ Z.of_nat 64) with (2 ^ 64). lia.
  - intros H1 H2 H3. unfold num_sign. rewrite H1, H2, H3. reflexivity.
Qed.

(** ** [auto_newline], [init_printk] and [show_color_band] *)

(** X15. From any cursor with non-negative coordinates [auto_newline]
    returns a cursor on the grid; it changes nothing else, leaves a cursor
    that is on the grid where it is, and is idempotent. *)
Theorem auto_newline_restores_grid : forall p,
  0 <= max_x p -> 0 <= max_y p -> 0 <= x p -> 0 <= y p < INT_MAX ->
  let p' := auto_newline p in
  (0 <= x p' <= max_x p /\ 0 <= y p' <= max_y p)
  /\ max_x p' = max_x p /\ max_y p' = max_y p
  /\ auto_newline p' = p'
  /\ (x p <= max_x p -> y p <= max_y p -> p' = p).
Proof.
  intros p Hmx Hmy Hx Hy. unfold auto_newline.
  destruct p as [w h mx my cx cy sx sy fb fl]. simpl in *.
  destruct (Z.ltb_spec mx cx) as [A | A]; simpl.
  - rewrite (to_int_id (cy + 1)) by (unfold is_int, INT_MIN, INT_MAX in *; lia).
    destruct (Z.ltb_spec my (cy + 1)) as [B | B]; simpl.
    + destruct (Z.ltb_spec mx 0); [lia|]. simpl.
      destruct (Z.ltb_spec my 0); [lia|]. repeat split; try lia.
    + destruct (Z.ltb_spec mx 0); [lia|]. simpl.
      destruct (Z.ltb_spec my (cy + 1)); [lia|]. repeat split; try lia.
  - destruct (Z.ltb_spec my cy) as [B | B]; simpl.
    + destruct (Z.ltb_spec mx cx); [lia|]. simpl.
      destruct (Z.ltb_spec my 0); [lia|]. repeat split; try lia.
    + destruct (Z.ltb_spec mx cx); [lia|]. simpl.
      destruct (Z.ltb_spec my cy); [lia|]. repeat split; try lia.
Qed.

(** X17. For a screen of non-negative size and cells of positive size,
    [init_printk] returns 0 with the cursor on [(0,0)], on the grid, and with
    [max_x] and [max_y] the numbers of whole cells that fit the width and
    the height; the stores made so far are kept. *)
Theorem init_printk_establishes_grid : forall w h fb l csx csy c0,
  0 <= w <= INT_MAX -> 0 <= h <= INT_MAX -> 0 < csx -> 0 < csy ->
  exists c,
    init_printk w h fb l csx csy c0 = Ok (0, c)
    /\ cursor c = (0, 0) /\ cursor_in_bounds c
    /\ max_x (pos c) * csx <= w < (max_x (pos c) + 1) * csx
    /\ max_y (pos c) * csy <= h < (max_y (pos c) + 1) * csy
    /\ (width (pos c), height (pos c), char_size_x (pos c), char_size_y (pos c))
       = (w, h, csx, csy)
    /\ FB_address (pos c) = fb
    /\ vram c = vram c0.
Proof.
  intros w h fb l csx csy c0 Hw Hh Hx Hy.
  unfold init_printk, calculate_max_charNum.
  destruct (Z.eqb_spec csx 0); [lia|]. destruct (Z.eqb_spec csy 0); [lia|].
  cbn [bind].
  pose proof (Z.quot_rem' w csx) as Ew.
  pose proof (Z.rem_bound_pos w csx ltac:(lia) Hx) as Rw.
  pose proof (Z.quot_pos w csx ltac:(lia) Hx) as Qw.
  pose proof (Z.quot_rem' h csy) as Eh.
  pose proof (Z.rem_bound_pos h csy ltac:(lia) Hy) as Rh.
  pose proof (Z.quot_pos h csy ltac:(lia) Hy) as Qh.
  rewrite (to_int_id (Z.quot w csx)) by (unfold is_int, INT_MIN, INT_MAX in *; nia).
  rewrite (to_int_id (Z.quot h csy)) by (unfold is_int, INT_MIN, INT_MAX in *; nia).
  eexists. split; [reflexivity|]. unfold cursor, cursor_in_bounds. simpl.
  repeat split; try lia; try nia.
Qed.

(** A cell size of 0 makes [init_printk] divide by zero. *)
Lemma init_printk_zero_cell : forall w h fb l csx csy c0,
  csx = 0 \/ csy = 0 -> init_printk w h fb l csx csy c0 = Fault DivideByZero.
Proof.
  intros w h fb l csx csy c0 H. unfold init_printk, calculate_max_charNum.
  destruct (Z.eqb_spec csx 0); [reflexivity|].
  destruct (Z.eqb_spec csy 0); [reflexivity|]. lia.
Qed.

Lemma show_color_band_loop_stores (n : nat) : forall pixel c,
  let c' := show_color_band_loop n pixel c in
  FB_address (pos c') = FB_address (pos c) + Z.of_nat n
  /\ vram c' = vram c ++ map (fun k => (FB_address (pos c) + Z.of_nat k, pixel)) (seq 0 n)
  /\ set_FB_address (FB_address (pos c)) (pos c') = pos c.
Proof.
  induction n as [|n IH]; intros pixel c.
  - simpl. rewrite app_nil_r. destruct c as [p v]. destruct p. simpl.
    split; [lia|]. split; reflexivity.
  - cbn [show_color_band_loop].
    specialize (IH pixel (mkConsole (set_FB_address (FB_address (pos c) + 1) (pos c))
                                    (vram c ++ [(FB_address (pos c), pixel)]))).
    cbv zeta in IH. destruct IH as (A & B & C).
    set (c' := show_color_band_loop n pixel _) in *. cbv zeta.
    cbn [pos vram] in A, B, C.
    destruct c as [p v]. destruct p as [w h mx my cx cy sx sy fb fl].
    cbn [pos vram set_FB_address FB_address width height max_x max_y x y
         char_size_x char_size_y FB_length] in *.
    split; [lia|]. split.
    + rewrite B. rewrite <- app_assoc. f_equal. cbn [app seq map].
      replace (fb + Z.of_nat 0) with fb by lia. f_equal.
      rewrite <- seq_shift, map_map. apply map_ext. intros k. f_equal. lia.
    + destruct (pos c') as [w' h' mx' my' cx' cy' sx' sy' fb' fl']. 
      cbn [set_FB_address FB_address width height max_x max_y x y
           char_size_x char_size_y FB_length] in *.
      inversion C. reflexivity.
Qed.

(** X16. [show_color_band] stores its colour to the [width * height]
    pixels from [pos.FB_address] on, in order, and leaves [pos.FB_address]
    moved past them: the frame buffer base the console draws from is no
    longer the start of the frame buffer.  Nothing else of [pos] changes. *)
Theorem show_color_band_moves_frame_buffer : forall w h a b c d con,
  0 <= w * h <= INT_MAX ->
  let con' := show_color_band w h a b c d con in
  FB_address (pos con') = FB_address (pos con) + w * h
  /\ vram con' = vram con
                 ++ map (fun k => (FB_address (pos con) + Z.of_nat k, band_pixel a b c d))
                        (seq 0 (Z.to_nat (w * h)))
  /\ set_FB_address (FB_address (pos con)) (pos con') = pos con.
Proof.
  intros w h a b c d con H. unfold show_color_band.
  rewrite (to_int_id (w * h)) by (unfold is_int, INT_MIN, INT_MAX in *; lia).
  pose proof (show_color_band_loop_stores (Z.to_nat (w * h)) (band_pixel a b c d) con) as L.
  cbv zeta in *. rewrite Z2Nat.id in L by lia. exact L.
Qed.

(** ** The further properties at concrete inputs *)

Lemma decimal_round_trip_witness :
  (0 <= 2024 <= INT_MAX /\ no_leading_digit (str "px"))
  /\ exists ds,
       write_num 2024 10 (-1) (-1) 0 = Some ds
       /\ Forall (fun c => is_digit c = true) ds
       /\ skip_and_atoi (ds ++ str "px") = (2024, str "px").
Proof.
  assert (H1 : 0 <= 2024 <= INT_MAX) by (unfold INT_MAX; lia).
  assert (H2 : no_leading_digit (str "px")) by reflexivity.
  split; [exact (conj H1 H2)|]. exact (decimal_round_trip 2024 (str "px") H1 H2).
Defined.

Lemma write_num_field_width_witness :
  (2 <= 10 <= 36 /\ - 2 ^ 29 <= 6 <= 2 ^ 29 /\ -1 <= 2 ^ 29)
  /\ exists natural out,
       write_num (-42) 10 (-1) (-1) SIGN = Some natural
       /\ write_num (-42) 10 6 (-1) SIGN = Some out
       /\ len out = Z.max 6 (len natural)
       /\ (has SIGN LEFT = true ->
             out = natural ++ repeat " "%char (Z.to_nat (6 - len natural)))
       /\ (has SIGN LEFT = false -> has SIGN PAD_ZERO = false ->
             out = repeat " "%char (Z.to_nat (6 - len natural)) ++ natural)
       /\ (has SIGN LEFT = false -> has SIGN PAD_ZERO = true ->
             out = num_sign SIGN (-42) ++ num_prefix SIGN 10
                   ++ repeat "0"%char (Z.to_nat (6 - len natural))
                   ++ skipn (List.length (num_sign SIGN (-42) ++ num_prefix SIGN 10))
                        natural).
Proof.
  assert (H1 : 2 <= 10 <= 36) by lia.
  assert (H2 : - 2 ^ 29 <= 6 <= 2 ^ 29) by lia.
  assert (H3 : -1 <= 2 ^ 29) by lia.
  split; [exact (conj H1 (conj H2 H3))|].
  exact (write_num_field_width (-42) 10 6 (-1) SIGN H1 H2 H3).
Defined.



Lemma auto_newline_restores_grid_witness :
  (0 <= max_x (pos console_past_row) /\ 0 <= max_y (pos console_past_row)
   /\ 0 <= x (pos console_past_row) /\ 0 <= y (pos console_past_row) < INT_MAX)
  /\ ((0 <= x (auto_newline (pos console_past_row)) <= 2
       /\ 0 <= y (auto_newline (pos console_past_row)) <= 2)
      /\ max_x (auto_newline (pos console_past_row)) = 2
      /\ max_y (auto_newline (pos console_past_row)) = 2
      /\ auto_newline (auto_newline (pos console_past_row))
         = auto_newline (pos console_past_row)
      /\ (3 <= 2 -> 2 <= 2 -> auto_newline (pos console_past_row) = pos console_past_row)).
Proof.
  assert (H1 : 0 <= max_x (pos console_past_row)) by (simpl; lia).
  assert (H2 : 0 <= max_y (pos console_past_row)) by (simpl; lia).
  assert (H3 : 0 <= x (pos console_past_row)) by (simpl; lia).
  assert (H4 : 0 <= y (pos console_past_row) < INT_MAX) by (unfold INT_MAX; simpl; lia).
  split; [exact (conj H1 (conj H2 (conj H3 H4)))|].
  exact (auto_newline_restores_grid (pos console_past_row) H1 H2 H3 H4).
Defined.

Lemma init_printk_establishes_grid_witness :
  (0 <= 16 <= INT_MAX /\ 0 <= 32 <= INT_MAX /\ 0 < 8 /\ 0 < 16)
  /\ exists c,
       init_printk 16 32 0 512 8 16 console_at_boot = Ok (0, c)
       /\ cursor c = (0, 0) /\ cursor_in_bounds c
       /\ max_x (pos c) * 8 <= 16 < (max_x (pos c) + 1) * 8
       /\ max_y (pos c) * 16 <= 32 < (max_y (pos c) + 1) * 16
       /\ (width (pos c), height (pos c), char_size_x (pos c), char_size_y (pos c))
          = (16, 32, 8, 16)
       /\ FB_address (pos c) = 0
       /\ vram c = vram console_at_boot.
Proof.
  assert (H1 : 0 <= 16 <= INT_MAX) by (unfold INT_MAX; lia).
  assert (H2 : 0 <= 32 <= INT_MAX) by (unfold INT_MAX; lia).
  assert (H3 : 0 < 8) by lia.
  assert (H4 : 0 < 16) by lia.
  split; [exact (conj H1 (conj H2 (conj H3 H4)))|].
  exact (init_printk_establishes_grid 16 32 0 512 8 16 console_at_boot H1 H2 H3 H4).
Defined.

Lemma show_color_band_moves_frame_buffer_witness :
  0 <= 2 * 2 <= INT_MAX
  /\ (FB_address (pos (show_color_band 2 2 1 2 3 4 console_16x32))
      = FB_address (pos console_16x32) + 2 * 2
      /\ vram (show_color_band 2 2 1 2 3 4 console_16x32)
         = vram console_16x32
           ++ map (fun k => (FB_address (pos console_16x32) + Z.of_nat k,
                             band_pixel 1 2 3 4))
                  (seq 0 (Z.to_nat (2 * 2)))
      /\ set_FB_address (FB_address (pos console_16x32))
           (pos (show_color_band 2 2 1 2 3 4 console_16x32))
         = pos console_16x32).
Proof.
  assert (H1 : 0 <= 2 * 2 <= INT_MAX) by (unfold INT_MAX; lia).
  split; [exact H1|].
  exact (show_color_band_moves_frame_buffer 2 2 1 2 3 4 console_16x32 H1).
Defined.

Lemma vsprintf_copies_literal_text_witness :
  ~ In "%"%char (str "abc")
  /\ vsprintf (fun _ _ _ _ => []) 0 (str "abc") [Vword 1]
     = Ok (mkFormatted (str "abc") []).
Proof.
  assert (H1 : ~ In "%"%char (str "abc")).
  { simpl. intros [H | [H | [H | []]]]; discriminate H. }
  split; [exact H1|].
  exact (vsprintf_copies_literal_text (fun _ _ _ _ => []) 0 (str "abc") [Vword 1] H1).
Defined.

Lemma conversion_before_d_is_skipped_witness :
  (heads_conversion "s" /\ not_before_d (str "!"))
  /\ vsprintf (fun _ _ _ _ => []) 0 ("%"%char :: "s"%char :: "d"%char :: str "!") [Vword 5]
     = vsprintf (fun _ _ _ _ => []) 0 ("%"%char :: "d"%char :: str "!") [Vword 5].
Proof.
  assert (H1 : heads_conversion "s").
  { unfold heads_conversion, is_flag_char.
    split; [intros [H | [H | [H | [H | H]]]]; discriminate H|].
    split; [reflexivity|]. repeat split; discriminate. }
  assert (H2 : not_before_d (str "!")) by (simpl; discriminate).
  split; [exact (conj H1 H2)|].
  exact (conversion_before_d_is_skipped (fun _ _ _ _ => []) 0 "s"%char (str "!")
           [Vword 5] H1 H2).
Defined.

Lemma string_directive_pads_and_truncates_witness :
  (len (str "hello") <= INT_MAX /\ - 2 ^ 30 <= 5 <= 2 ^ 30)
  /\ (let n := if 2 <? 0 then len (str "hello") else Z.min 2 (len (str "hello")) in
      let text := firstn (Z.to_nat n) (str "hello") in
      let fill := repeat " "%char (Z.to_nat (5 - n)) in
      conversion (fun _ _ _ _ => []) "s" 0 5 2 0 [Vstr (Some (str "hello"))] 0
      = Ok (if has 0 LEFT then text ++ fill else fill ++ text, [], [])
      /\ len text = n
      /\ len (if has 0 LEFT then text ++ fill else fill ++ text) = Z.max 5 n).
Proof.
  assert (H1 : len (str "hello") <= INT_MAX) by (unfold len, INT_MAX; simpl; lia).
  assert (H2 : - 2 ^ 30 <= 5 <= 2 ^ 30) by lia.
  split; [exact (conj H1 H2)|].
  exact (string_directive_pads_and_truncates (fun _ _ _ _ => []) 0 5 2 0 (str "hello")
           [] 0 H1 H2).
Defined.

Lemma char_directive_pads_witness :
  - 2 ^ 30 <= 3 <= 2 ^ 30
  /\ (let fill := repeat " "%char (Z.to_nat (3 - 1)) in
      conversion (fun _ _ _ _ => []) "c" LEFT 3 (-1) 0 [Vword 65] 0
      = Ok (if has LEFT LEFT then [char_of (to_int 65)] ++ fill
            else fill ++ [char_of (to_int 65)], [], [])
      /\ len (if has LEFT LEFT then [char_of (to_int 65)] ++ fill
              else fill ++ [char_of (to_int 65)]) = Z.max 3 1).
Proof.
  assert (H1 : - 2 ^ 30 <= 3 <= 2 ^ 30) by lia.
  split; [exact H1|].
  exact (char_directive_pads (fun _ _ _ _ => []) LEFT 3 (-1) 0 65 [] 0 H1).
Defined.

Lemma count_directive_stores_length_witness :
  (~ In "%"%char (str "ab") /\ 0 < 4096 < 2 ^ 64)
  /\ vsprintf (fun _ _ _ _ => []) 0 (str "ab" ++ str "%n") [Vword 4096]
     = Ok (mkFormatted (str "ab") [(4096, len (str "ab"))]).
Proof.
  assert (H1 : ~ In "%"%char (str "ab")).
  { simpl. intros [H | [H | []]]; discriminate H. }
  assert (H2 : 0 < 4096 < 2 ^ 64) by lia.
  split; [exact (conj H1 H2)|].
  exact (count_directive_stores_length (fun _ _ _ _ => []) 0 (str "ab") 4096 [] H1 H2).
Defined.

Lemma initial_qualifier_only_tested_against_l_witness :
  same_fetch 0 7
  /\ vsprintf (fun _ _ _ _ => []) 0 (str "%d") [Vword 5]
     = vsprintf (fun _ _ _ _ => []) 7 (str "%d") [Vword 5].
Proof.
  assert (H1 : same_fetch 0 7) by reflexivity.
  split; [exact H1|].
  exact (initial_qualifier_only_tested_against_l (fun _ _ _ _ => []) 0 7 (str "%d")
           [Vword 5] H1).
Defined.

Lemma putchar_shows_font_bits_witness :
  0 <= char_size_x (pos console_16x32) <= 29
  /\ putchar (fun _ _ => 255) (pos console_16x32) 0 16 0 0 1 0 65
     = flat_map
         (fun i =>
            map (fun j =>
                   (0 + to_int (16 * to_int (0 + Z.of_nat i)) + 0 + Z.of_nat j,
                    if Z.testbit 255 (char_size_x (pos console_16x32) - Z.of_nat j) then 1 else 0))
                (seq 0 (Z.to_nat (char_size_x (pos console_16x32)))))
         (seq 0 (Z.to_nat (char_size_y (pos console_16x32)))).
Proof.
  assert (H1 : 0 <= char_size_x (pos console_16x32) <= 29) by (simpl; lia).
  split; [exact H1|].
  exact (putchar_shows_font_bits (fun _ _ => 255) (pos console_16x32) 0 16 0 0 1 0 65 H1).
Defined.

Lemma printk_color_keeps_cursor_on_grid_witness :
  (vsprintf (fun _ _ _ _ => []) 0 (str "ab") [] = Ok (mkFormatted (str "ab") [])
   /\ ~ In "010"%char (buf (mkFormatted (str "ab") []))
   /\ grid_below_int_max console_16x32 /\ cursor_in_bounds console_16x32)
  /\ exists n c',
       printk_color (fun _ _ _ _ => []) (fun _ _ => 0) 0 0 1 0 (str "ab") [] console_16x32
       = Ok (n, c')
       /\ keeps_grid console_16x32 c'.
Proof.
  assert (H1 : vsprintf (fun _ _ _ _ => []) 0 (str "ab") []
               = Ok (mkFormatted (str "ab") [])) by reflexivity.
  assert (H2 : ~ In "010"%char (buf (mkFormatted (str "ab") []))).
  { simpl. intros [H | [H | []]]; discriminate H. }
  assert (H3 : grid_below_int_max console_16x32)
    by (unfold grid_below_int_max, INT_MAX; simpl; lia).
  assert (H4 : cursor_in_bounds console_16x32)
    by (unfold cursor_in_bounds; simpl; lia).
  split; [exact (conj H1 (conj H2 (conj H3 H4)))|].
  exact (printk_color_keeps_cursor_on_grid (fun _ _ _ _ => []) (fun _ _ => 0) 0 0 1 0
           (str "ab") [] console_16x32 (mkFormatted (str "ab") []) H1 H2 H3 H4).
Defined.


Lemma tab_moves_to_next_stop_witness :
  (cursor_in_bounds console_col_3 /\ grid_below_int_max console_col_3
   /\ 3 + 8 - 3 mod 8 <= 80)
  /\ exists c' drawn,
       printk_color (fun _ _ _ _ => []) (fun _ _ => 0) 0 0 1 0 ["009"%char] []
         console_col_3 = Ok (1, c')
       /\ cursor c' = (3 + 8 - 3 mod 8, 0)
       /\ (3 + 8 - 3 mod 8) mod 8 = 0
       /\ 3 < 3 + 8 - 3 mod 8
       /\ vram c' = vram console_col_3 ++ drawn
       /\ Forall (fun s => snd s = 0) drawn.
Proof.
  assert (H1 : cursor_in_bounds console_col_3)
    by (unfold cursor_in_bounds; simpl; lia).
  assert (H2 : grid_below_int_max console_col_3)
    by (unfold grid_below_int_max, INT_MAX; simpl; lia).
  assert (H3 : x (pos console_col_3) + 8 - x (pos console_col_3) mod 8
               <= max_x (pos console_col_3)) by (simpl; lia).
  split; [exact (conj H1 (conj H2 H3))|].
  exact (tab_moves_to_next_stop (fun _ _ _ _ => []) (fun _ _ => 0) 0 0 1 0
           console_col_3 H1 H2 H3).
Defined.


Lemma write_num_digits_denote_magnitude_witness :
  (2 <= 16 <= 36 /\ - 2 ^ 63 < -255 < 2 ^ 63)
  /\ write_num (-255) 16 (-1) (-1) SMALL
     = Some (num_sign SMALL (-255) ++ num_prefix SMALL 16 ++ num_digits SMALL (-255) 16)
  /\ digits_value (num_digit_table SMALL) 16 (num_digits SMALL (-255) 16) = Z.abs (-255)
  /\ (has SMALL SIGN = false -> has SMALL PLUS = false -> has SMALL SPACE = false ->
      num_sign SMALL (-255) = []).
Proof.
  assert (H1 : 2 <= 16 <= 36) by lia.
  assert (H2 : - 2 ^ 63 < -255 < 2 ^ 63) by lia.
  split; [exact (conj H1 H2)|].
  exact (write_num_digits_denote_magnitude (-255) 16 SMALL H1 H2).
Defined.
